(** * Directory statistics scanner: a shallow embedding of [main.cpp]

    The program enumerates the entries below a root directory, cuts the
    enumerated path list into contiguous chunks, lets one task per chunk
    build a partial map from directory name to (number of files, total
    size), merges the partial maps into one global map and prints a
    report.

    The embedding follows the source function by function:
    - [Extension_info], [map_type]            the data model (lines 16-20);
    - [process_map]                           the merge step (lines 23-32);
    - [generate_map]                          the per-chunk scan (lines 35-64);
    - [plan_chunks], [launch], [merge_futures], [report], [main_body]
                                              the body of [main] (lines 87-134).

    The prompt for the root directory and the check that it is a directory
    (lines 69-78) come before anything the properties below are about and
    are not modelled.

    Integer widths are those of the usual LP64 targets: [std::uintmax_t]
    and [std::size_t] are 64-bit unsigned, [unsigned int] is 32-bit
    unsigned and [int] is 32-bit two's complement.  Unsigned values are
    modelled in [N] and signed ones in [Z], with every wrap-around written
    out.  The file system is an oracle ([FileSystem]) that tells, for every
    query the code performs, whether the query throws and what it returns. *)

From Stdlib Require Import ZArith Lia Ascii.
From stdpp Require Import base numbers option list strings gmap fin_maps sorting.

Set Warnings "-clear-no-such-hyp".

Local Open Scope N_scope.

(** ** Machine arithmetic *)

Definition UINTMAX_MOD : N := 2 ^ 64.
Definition UINT_MOD : N := 2 ^ 32.

(** Value of a mathematical natural once stored in a [std::uintmax_t]. *)
Definition wrap_uintmax (n : N) : N := n mod UINTMAX_MOD.

(** Value of a mathematical natural once stored in an [unsigned int]. *)
Definition wrap_uint (n : N) : N := n mod UINT_MOD.

(** Conversion of an integer to [int]: reduction modulo 2^32 into the
    range [-2^31, 2^31). *)
Definition to_int (z : Z) : Z := ((z + 2 ^ 31) mod 2 ^ 32 - 2 ^ 31)%Z.

(** Conversion of an [int] to [std::uintmax_t]: reduction modulo 2^64. *)
Definition int_to_uintmax (z : Z) : N := Z.to_N (z mod 2 ^ 64)%Z.

(** ** Exceptions

    Every exception the code can meet derives from [std::exception]; an
    exception is represented by the text of its [what()]. *)

Inductive Result (A : Type) : Type :=
  | Ok (a : A)
  | Throw (what : string).
Arguments Ok {A} a.
Arguments Throw {A} what.

(** ** Paths and the file system seen by the scan *)

Abbreviation path := string (only parsing).

Fixpoint has_separator (s : string) : bool :=
  match s with
  | EmptyString => false
  | String c rest => if Ascii.eqb c "/"%char then true else has_separator rest
  end.

(** [fs::path::filename()] in the generic (POSIX) format: what follows the
    last directory separator; empty when the path ends in a separator. *)
Fixpoint filename (p : path) : string :=
  match p with
  | EmptyString => EmptyString
  | String c rest =>
      if has_separator rest then filename rest
      else if Ascii.eqb c "/"%char then rest else p
  end.

(** One step of a [fs::directory_iterator] together with what the two
    queries the loop body may perform on it would answer. *)
Record directory_entry : Type := {
  entry_path : path;
  entry_is_regular_file : Result bool;
  entry_file_size : Result N
}.

(** The run of a [fs::directory_iterator] over one directory: the entries
    it yields and then, when its construction or one of its increments
    throws, the exception that ends the iteration. *)
Record dir_listing : Type := {
  yielded : list directory_entry;
  iterator_throws : option string
}.

Record FileSystem : Type := {
  is_directory : path → Result bool;
  directory_iterator : path → dir_listing
}.

(** ** Data model (lines 16-20) *)

Record Extension_info : Type := {
  num_files : N;
  total_size : N
}.

Abbreviation map_type := (gmap string Extension_info).

(** A value-initialised [Extension_info], as [operator[]] creates it. *)
Definition zero_info : Extension_info := {| num_files := 0; total_size := 0 |}.

(** [m[k]] read through [operator[]]: an absent key reads as zeros. *)
Definition subscript (m : map_type) (k : string) : Extension_info :=
  default zero_info (m !! k).

(** [m[k].field op= v]: [operator[]] creates the entry when it is absent,
    then the field is updated in place. *)
Definition subscript_update (m : map_type) (k : string)
    (f : Extension_info → Extension_info) : map_type :=
  <[k := f (subscript m k)]> m.

Definition set_num_files (v : N) (i : Extension_info) : Extension_info :=
  {| num_files := v; total_size := total_size i |}.
Definition set_total_size (v : N) (i : Extension_info) : Extension_info :=
  {| num_files := num_files i; total_size := v |}.
Definition add_num_files (v : N) (i : Extension_info) : Extension_info :=
  {| num_files := wrap_uintmax (num_files i + v); total_size := total_size i |}.
Definition add_total_size (v : N) (i : Extension_info) : Extension_info :=
  {| num_files := num_files i; total_size := wrap_uintmax (total_size i + v) |}.

(** Traversal of a [std::map<std::string, _>]: ascending key order, keys
    compared character by character as unsigned bytes. *)
Definition key_le (x y : string * Extension_info) : Prop := String.le x.1 y.1.

Definition entries (m : map_type) : list (string * Extension_info) :=
  merge_sort key_le (map_to_list m).

(** ** Output *)

(** What the program writes.  [pel::print]/[pel::println] come from
    [pel_print.hpp], which is not part of the sources at hand: a printed
    line is kept as the format it was produced with and its arguments. *)
Inductive output : Type :=
  | Cerr_exception (what : string)
      (* "Exception caught: {what}" on std::cerr *)
  | Cout_debug (dir : string) (files bytes : N)
      (* "Debug: {dir}: {files} files {bytes} bytes" on std::cout *)
  | Println_header
  | Println_directory (dir : string) (files bytes : N)
      (* "{:>25}: {:>5} files {:>10} bytes" *)
  | Println_blank
  | Println_total (files bytes : Z) (folders : N) (ms : Z).
      (* "{:>20}Total: {:>5} files {:>10} bytes | {} folders [{} ms]" *)

(** ** [process_map] (lines 23-32) *)

Definition merge_entry (global_map : map_type) (e : string * Extension_info) : map_type :=
  let '(dir, info) := e in
  let g1 := subscript_update global_map dir (add_num_files (num_files info)) in
  subscript_update g1 dir (add_total_size (total_size info)).

Definition process_map (partial_map global_map : map_type) (directory_counter : N)
    : map_type * N :=
  (foldl merge_entry global_map (entries partial_map),
   wrap_uintmax (directory_counter + N.of_nat (size partial_map))).

(** ** [generate_map] (lines 35-64) *)

(** The [try] block of lines 44-50 on the entry [dir_name] of [res], for
    the entries the iterator still has to yield: the map when the block is
    left and the exception caught, if any.  [last] is what ends the
    iteration once the entries are exhausted. *)
Fixpoint scan_entries (res : map_type) (dir_name : string)
    (last : option string) (l : list directory_entry) : map_type * option string :=
  match l with
  | [] => (res, last)
  | e :: rest =>
      match entry_is_regular_file e with
      | Throw what => (res, Some what)
      | Ok false => scan_entries res dir_name last rest
      | Ok true =>
          let res1 := subscript_update res dir_name (add_num_files 1) in
          match entry_file_size e with
          | Throw what => (res1, Some what)
          | Ok sz =>
              scan_entries (subscript_update res1 dir_name (add_total_size sz))
                           dir_name last rest
          end
      end
  end.

Definition caught_output (caught : option string) : list output :=
  match caught with
  | Some what => [Cerr_exception what]
  | None => []
  end.

(** The loop of lines 37-56.  [fs::is_directory(pth)] is evaluated outside
    the [try] block: when it throws, the exception leaves the function. *)
Fixpoint generate_loop (fs : FileSystem) (chunk : list path)
    (res : map_type) (out : list output) : Result (map_type * list output) :=
  match chunk with
  | [] => Ok (res, out)
  | pth :: rest =>
      match is_directory fs pth with
      | Throw what => Throw what
      | Ok false => generate_loop fs rest res out
      | Ok true =>
          let dir_name := filename pth in
          let res1 := subscript_update res dir_name (set_num_files 0) in
          let res2 := subscript_update res1 dir_name (set_total_size 0) in
          let listing := directory_iterator fs pth in
          let '(res3, caught) :=
            scan_entries res2 dir_name (iterator_throws listing) (yielded listing) in
          generate_loop fs rest res3 (out ++ caught_output caught)
      end
  end.

Definition debug_lines (res : map_type) : list output :=
  (λ e, Cout_debug e.1 (num_files e.2) (total_size e.2)) <$> entries res.

Definition generate_map (fs : FileSystem) (chunk : list path)
    : Result (map_type * list output) :=
  match generate_loop fs chunk ∅ [] with
  | Throw what => Throw what
  | Ok (res, out) => Ok (res, out ++ debug_lines res)
  end.

(** ** The body of [main] (lines 87-134)

    The enumerated path list (lines 82-85) is an input of the model: the
    order in which [fs::recursive_directory_iterator] yields the entries
    is not specified. *)

(** Value of a mathematical natural once stored in a [std::size_t]. *)
Definition wrap_size_t (n : N) : N := n mod UINTMAX_MOD.

(** [std::vector<fs::path>(begin, end)] for the iterators at offsets [b]
    and [e] of [paths]; the behaviour is undefined unless
    [b <= e <= paths.size()]. *)
Definition slice (paths : list path) (b e : N) : option (list path) :=
  if decide (b ≤ e ∧ e ≤ N.of_nat (length paths))
  then Some (take (N.to_nat (e - b)) (drop (N.to_nat b) paths))
  else None.

(** Line 91: [hardw_threads - 1] in [unsigned int] arithmetic. *)
Definition num_futures (hardw_threads : N) : N :=
  wrap_uint (hardw_threads + UINT_MOD - 1).

(** Line 92: [paths.size() / hardw_threads]; [None] stands for the
    undefined behaviour of an integer division by zero. *)
Definition max_chunk_sz (paths : list path) (hardw_threads : N) : option N :=
  if decide (hardw_threads = 0) then None
  else Some (N.of_nat (length paths) / hardw_threads).

(** Lines 98-99 for the loop index [i]: [num_futures - 1] is computed in
    [unsigned int] arithmetic, [i * max_chunk_sz] in [std::size_t]
    arithmetic. *)
Definition chunk_at (paths : list path) (num_futures max_chunk_sz : N) (i : N)
    : option (list path) :=
  let begin_ := wrap_size_t (i * max_chunk_sz) in
  let end_ :=
    if decide (i = wrap_uint (num_futures + UINT_MOD - 1))
    then N.of_nat (length paths)
    else begin_ + max_chunk_sz in
  slice paths begin_ end_.

(** Lines 90-99: the chunks handed to [std::async], in launch order.
    [None] stands for undefined behaviour: the division of line 92 when
    [hardw_threads] is 0, or an iterator range outside [paths]. *)
Definition plan_chunks (paths : list path) (hardw_threads : N)
    : option (list (list path)) :=
  match max_chunk_sz paths hardw_threads with
  | None => None
  | Some chunk_sz =>
      mapM (λ i : nat, chunk_at paths (num_futures hardw_threads) chunk_sz (N.of_nat i))
           (seq 0 (N.to_nat (num_futures hardw_threads)))
  end.

(** What the run depends on besides the path list. *)
Record Environment : Type := {
  env_fs : FileSystem;
  hardware_concurrency : N;          (* an [unsigned int]; 0 when unknown *)
  async_throws : nat → option string; (* does the i-th [std::async] throw? *)
  elapsed_ms : Z
}.

(** Lines 101-106 for the [i]-th chunk: the future, and what the launch
    site or the task writes.  A failed launch is replaced by a task that
    returns an empty map. *)
Definition launch (env : Environment) (i : nat) (chunk : list path)
    : Result map_type * list output :=
  match async_throws env i with
  | Some what => (Ok ∅, [Cerr_exception what])
  | None =>
      match generate_map (env_fs env) chunk with
      | Ok (res, out) => (Ok res, out)
      | Throw what => (Throw what, [])
      end
  end.

(** Lines 110-112: [future.get()] rethrows what the task threw. *)
Fixpoint merge_futures (futures : list (Result map_type))
    (processed_data : map_type) (directory_counter : N) : Result (map_type * N) :=
  match futures with
  | [] => Ok (processed_data, directory_counter)
  | Throw what :: _ => Throw what
  | Ok partial_map :: rest =>
      let '(g, c) := process_map partial_map processed_data directory_counter in
      merge_futures rest g c
  end.

(** Lines 115-121. *)
Definition directory_lines (processed_data : map_type) : list output :=
  (λ e, Println_directory e.1 (num_files e.2) (total_size e.2))
    <$> filter (λ e, 0 < num_files e.2) (entries processed_data).

(** One step of the [std::accumulate] calls of lines 123-126.  The initial
    value is the [int] literal 0, so the accumulator is an [int]: the
    lambda's result, a [std::uintmax_t], is converted back to [int] after
    every element. *)
Definition accumulate_step (field : Extension_info → N) (acc : Z)
    (entry : string * Extension_info) : Z :=
  to_int (Z.of_N (wrap_uintmax (int_to_uintmax acc + field entry.2))).

Definition total_subdirectories (processed_data : map_type) : Z :=
  foldl (accumulate_step num_files) 0%Z (entries processed_data).

Definition total_space (processed_data : map_type) : Z :=
  foldl (accumulate_step total_size) 0%Z (entries processed_data).

(** Lines 133-134. *)
Definition summary_lines (processed_data : map_type) (directory_counter : N)
    (ms : Z) : list output :=
  [Println_blank;
   Println_total (total_subdirectories processed_data) (total_space processed_data)
                 directory_counter ms].

Definition report (processed_data : map_type) (directory_counter : N) (ms : Z)
    : list output :=
  Println_header :: directory_lines processed_data
    ++ summary_lines processed_data directory_counter ms.

(** How the run ends: in undefined behaviour, with an exception that
    nothing catches, or normally.  What the tasks write is listed task by
    task, before the report: the program does not determine how the
    writes of concurrent tasks interleave, and what a task wrote before it
    threw is not kept. *)
Inductive outcome : Type :=
  | Undefined_behaviour
  | Uncaught (what : string)
  | Completed (processed_data : map_type) (directory_counter : N)
              (printed : list output).

Definition main_body (env : Environment) (paths : list path) : outcome :=
  match plan_chunks paths (hardware_concurrency env) with
  | None => Undefined_behaviour
  | Some chunks =>
      let launched := imap (launch env) chunks in
      match merge_futures launched.*1 ∅ 0 with
      | Throw what => Uncaught what
      | Ok (processed_data, directory_counter) =>
          Completed processed_data directory_counter
            (concat launched.*2
               ++ report processed_data directory_counter (elapsed_ms env))
      end
  end.

(** ** Notions used to state the properties *)

(** The effect of the [try] block on the one record it updates. *)
Fixpoint scan_info (i : Extension_info) (last : option string)
    (l : list directory_entry) : Extension_info * option string :=
  match l with
  | [] => (i, last)
  | e :: rest =>
      match entry_is_regular_file e with
      | Throw what => (i, Some what)
      | Ok false => scan_info i last rest
      | Ok true =>
          match entry_file_size e with
          | Throw what => (add_num_files 1 i, Some what)
          | Ok sz => scan_info (add_total_size sz (add_num_files 1 i)) last rest
          end
      end
  end.

(** What scanning one directory from a zeroed record leaves in the record,
    and the exception it stops on. *)
Definition dir_stats (d : dir_listing) : Extension_info :=
  (scan_info zero_info (iterator_throws d) (yielded d)).1.
Definition dir_caught (d : dir_listing) : option string :=
  (scan_info zero_info (iterator_throws d) (yielded d)).2.

Definition is_dir (fs : FileSystem) (p : path) : bool :=
  match is_directory fs p with
  | Ok true => true
  | _ => false
  end.

(** Every [fs::is_directory] query of the chunk returns. *)
Definition status_ok (fs : FileSystem) (chunk : list path) : Prop :=
  Forall (λ p, ∃ b, is_directory fs p = Ok b) chunk.

(** The map the loop of [generate_map] builds when no status query throws. *)
Fixpoint scan_chunk (fs : FileSystem) (chunk : list path) (res : map_type) : map_type :=
  match chunk with
  | [] => res
  | p :: rest =>
      if is_dir fs p
      then scan_chunk fs rest (<[filename p := dir_stats (directory_iterator fs p)]> res)
      else scan_chunk fs rest res
  end.

(** The lines the loop of [generate_map] writes to [std::cerr]. *)
Definition caught_in (fs : FileSystem) (chunk : list path) : list output :=
  chunk ≫= λ p, if is_dir fs p
                then caught_output (dir_caught (directory_iterator fs p))
                else [].

(** The size of an entry that is a regular file whose size can be read. *)
Definition regular_size (e : directory_entry) : option N :=
  match entry_is_regular_file e, entry_file_size e with
  | Ok true, Ok sz => Some sz
  | _, _ => None
  end.

(** An entry on which the loop body does not throw. *)
Definition readable (e : directory_entry) : Prop :=
  entry_is_regular_file e = Ok false
  ∨ (entry_is_regular_file e = Ok true ∧ ∃ sz, entry_file_size e = Ok sz).

Definition sum_sizes (l : list N) : N := foldr N.add 0 l.

(** The number of regular files among the entries [l] and the sum of their
    sizes, as mathematical integers. *)
Definition exact_stats (l : list directory_entry) : Extension_info :=
  {| num_files := N.of_nat (length (omap regular_size l));
     total_size := sum_sizes (omap regular_size l) |}.

(** Both fields fit in a [std::uintmax_t]. *)
Definition in_range (i : Extension_info) : Prop :=
  num_files i < UINTMAX_MOD ∧ total_size i < UINTMAX_MOD.

Definition wrap_info (i : Extension_info) : Extension_info :=
  {| num_files := wrap_uintmax (num_files i); total_size := wrap_uintmax (total_size i) |}.

(** The listing is complete and none of its entries makes the loop body
    throw. *)
Definition clean (d : dir_listing) : Prop :=
  iterator_throws d = None ∧ Forall readable (yielded d).

(** The scan of [d] goes through the entries [good] and then meets the
    exception [what] before anything else is counted: the iterator throws,
    or the status query of the next entry throws. *)
Definition fails_after (d : dir_listing) (good : list directory_entry)
    (what : string) : Prop :=
  Forall readable good
  ∧ ((yielded d = good ∧ iterator_throws d = Some what)
     ∨ ∃ e rest, yielded d = good ++ e :: rest ∧ entry_is_regular_file e = Throw what).

(** The scan of [d] goes through the entries [good] and then meets a
    regular file whose size cannot be read. *)
Definition size_fails_after (d : dir_listing) (good : list directory_entry)
    (what : string) : Prop :=
  Forall readable good
  ∧ ∃ e rest, yielded d = good ++ e :: rest
      ∧ entry_is_regular_file e = Ok true ∧ entry_file_size e = Throw what.

(** [p] is a directory of the chunk and no directory after it in the chunk
    has the same final name component. *)
Definition last_of_its_name (fs : FileSystem) (chunk : list path) (p : path) : Prop :=
  ∃ before after, chunk = before ++ p :: after
    ∧ is_directory fs p = Ok true
    ∧ ∀ q, q ∈ after → is_directory fs q = Ok true → filename q ≠ filename p.

(** [k] consecutive slices of [sz] elements, from the start of [paths]. *)
Definition even_chunks (paths : list path) (k sz : nat) : list (list path) :=
  (λ i, take sz (drop (i * sz) paths)) <$> seq 0 k.

(** The two statements a merge performs on one global entry. *)
Definition combine (g i : Extension_info) : Extension_info :=
  {| num_files := wrap_uintmax (num_files g + num_files i);
     total_size := wrap_uintmax (total_size g + total_size i) |}.

(** The contribution of a partial map to a name: zero when absent. *)
Definition files_in (partial_map : map_type) (dir : string) : N :=
  num_files (subscript partial_map dir).
Definition bytes_in (partial_map : map_type) (dir : string) : N :=
  total_size (subscript partial_map dir).

Definition sum_over (f : map_type → N) (partials : list map_type) : N :=
  foldr (λ P acc, f P + acc) 0 partials.

(** The sum of a field over the entries of a map, as a mathematical
    integer. *)
Definition sum_field (field : Extension_info → N) (m : map_type) : Z :=
  foldr (λ e acc, Z.of_N (field e.2) + acc)%Z 0%Z (entries m).

(** The loop of lines 110-112 when no task has thrown. *)
Definition merge_all (partials : list map_type) (processed_data : map_type)
    (directory_counter : N) : map_type * N :=
  foldl (λ gc P, process_map P gc.1 gc.2) (processed_data, directory_counter) partials.

(** Some partial map has the name among its keys. *)
Definition mentioned (dir : string) (partials : list map_type) : Prop :=
  Exists (λ P, is_Some (P !! dir)) partials.

(** No name is a key of two of the maps. *)
Fixpoint pairwise_disjoint (partials : list map_type) : Prop :=
  match partials with
  | [] => True
  | P :: rest => Forall (λ Q, dom P ## dom Q) rest ∧ pairwise_disjoint rest
  end.

(** ** Notions used to state the properties of the whole run *)

(** The directories of a path list, in the order of the list. *)
Definition directories (fs : FileSystem) (paths : list path) : list path :=
  filter (λ p, is_dir fs p = true) paths.

(** No two directories of the path list have the same final name
    component. *)
Definition distinct_names (fs : FileSystem) (paths : list path) : Prop :=
  NoDup (filename <$> directories fs paths).

(** The strict order of the names in the traversal of a map. *)
Definition name_lt (x y : string * Extension_info) : Prop :=
  String.ltb x.1 y.1 = true.

(** The file counts, and the byte counts, shown on the directory lines of
    an output, added up. *)
Definition printed_files (lines : list output) : Z :=
  foldr (λ line acc, match line with
                     | Println_directory _ files _ => Z.of_N files + acc
                     | _ => acc
                     end)%Z 0%Z lines.
Definition printed_bytes (lines : list output) : Z :=
  foldr (λ line acc, match line with
                     | Println_directory _ _ bytes => Z.of_N bytes + acc
                     | _ => acc
                     end)%Z 0%Z lines.

(** Every [std::async] call of the run starts its task. *)
Definition launches_ok (env : Environment) : Prop :=
  ∀ i, async_throws env i = None.

(** The partial maps the tasks of the chunks return when no status query
    throws. *)
Definition partials_of (fs : FileSystem) (chunks : list (list path)) : list map_type :=
  (λ chunk, scan_chunk fs chunk ∅) <$> chunks.


(** ** Concrete file systems used in the examples below *)

Module Fixture.

Definition regular (p : path) (sz : N) : directory_entry :=
  {| entry_path := p; entry_is_regular_file := Ok true; entry_file_size := Ok sz |}.

Definition other (p : path) : directory_entry :=
  {| entry_path := p; entry_is_regular_file := Ok false;
     entry_file_size := Throw "not a regular file" |}.

Definition vanished (p : path) : directory_entry :=
  {| entry_path := p; entry_is_regular_file := Ok true;
     entry_file_size := Throw "No such file or directory" |}.

Definition complete (l : list directory_entry) : dir_listing :=
  {| yielded := l; iterator_throws := None |}.

Definition broken (l : list directory_entry) (what : string) : dir_listing :=
  {| yielded := l; iterator_throws := Some what |}.

(** A file system given by the listings of its directories; every other
    path is not a directory. *)
Definition of_listings (dirs : list (path * dir_listing)) : FileSystem :=
  {| is_directory p := Ok (bool_decide (p ∈ dirs.*1));
     directory_iterator p :=
       default (complete []) (list_to_map (M := gmap string dir_listing) dirs !! p) |}.

(** The tree of the end-to-end example: [R/a] holds three regular files
    of 10, 20 and 30 bytes, [R/b] is empty. *)
Definition tree_ab : FileSystem :=
  of_listings
    [("R/a", complete [regular "R/a/f1" 10; regular "R/a/f2" 20; regular "R/a/f3" 30]);
     ("R/b", complete [])].

Definition paths_ab : list path := ["R/a"; "R/a/f1"; "R/a/f2"; "R/a/f3"; "R/b"].

Definition env_ab (threads : N) : Environment :=
  {| env_fs := tree_ab; hardware_concurrency := threads;
     async_throws := λ _, None; elapsed_ms := 7 |}.

(** Two directories with the same final name component: [R/a/x] holds
    one regular file of 5 bytes, [R/b/x] is empty. *)
Definition tree_xx : FileSystem :=
  of_listings
    [("R/a", complete [other "R/a/x"]);
     ("R/a/x", complete [regular "R/a/x/f" 5]);
     ("R/b", complete [other "R/b/x"]);
     ("R/b/x", complete [])].

Definition chunk_xx : list path := ["R/a/x"; "R/b/x"].

(** [R/a] cannot be listed beyond its first entry, [R/b] is healthy,
    [R/c] holds a file that vanishes before its size is read, and
    [R/d] cannot be listed at all. *)
Definition tree_faulty : FileSystem :=
  of_listings
    [("R/a", broken [regular "R/a/f1" 10] "Permission denied");
     ("R/b", complete [regular "R/b/f1" 7; other "R/b/sub"]);
     ("R/c", complete [regular "R/c/f1" 1; vanished "R/c/f2"; regular "R/c/f3" 4]);
     ("R/d", broken [] "Permission denied")].

Definition chunk_faulty : list path := ["R/a"; "R/b"; "R/b/f1"; "R/c"; "R/d"].

(** The directory name [x] occurs at two places of the tree; with three
    hardware threads the two occurrences fall into different chunks. *)
Definition tree_xy : FileSystem :=
  of_listings
    [("R/x", complete [regular "R/x/f" 4]);
     ("R/y", complete [other "R/y/x"]);
     ("R/y/x", complete [regular "R/y/x/g" 6])].

Definition paths_xy : list path := ["R/x"; "R/y"; "R/y/x"].

(** One directory holding one regular file of 2 GiB. *)
Definition tree_big : FileSystem :=
  of_listings [("R/big", complete [regular "R/big/f" 2147483648])].

Definition paths_big : list path := ["R/big"; "R/big/f"].

Definition env_big : Environment :=
  {| env_fs := tree_big; hardware_concurrency := 2;
     async_throws := λ _, None; elapsed_ms := 7 |}.

Definition env_xy : Environment :=
  {| env_fs := tree_xy; hardware_concurrency := 3;
     async_throws := λ _, None; elapsed_ms := 7 |}.

(** [R/locked] cannot be examined: its status query throws. *)
Definition tree_locked : FileSystem :=
  {| is_directory p :=
       if String.eqb p "R/locked" then Throw "Permission denied"
       else Ok (String.eqb p "R/a");
     directory_iterator p :=
       if String.eqb p "R/a" then complete [regular "R/a/f1" 10] else complete [] |}.

Definition paths_locked : list path := ["R/a"; "R/a/f1"; "R/locked"].

Definition env_locked : Environment :=
  {| env_fs := tree_locked; hardware_concurrency := 3;
     async_throws := λ _, None; elapsed_ms := 7 |}.

(** The tree [tree_faulty] scanned while the second launch fails. *)
Definition env_faulty : Environment :=
  {| env_fs := tree_faulty; hardware_concurrency := 4;
     async_throws := λ i, if decide (i = 1%nat) then Some "Resource temporarily unavailable" else None;
     elapsed_ms := 7 |}.

(** [R/a/x] holds one regular file of 5 bytes, [R/b/x] is empty and
    [R/d] cannot be listed. *)
Definition tree_xxd : FileSystem :=
  of_listings
    [("R/a/x", complete [regular "R/a/x/f" 5]);
     ("R/b/x", complete []);
     ("R/d", broken [] "Permission denied")].

Definition chunk_xxd : list path := ["R/a/x"; "R/b/x"; "R/d"].

(** [R/d] cannot be listed and [R/locked/sub] cannot be examined. *)
Definition tree_d_locked : FileSystem :=
  {| is_directory p :=
       if String.eqb p "R/locked/sub" then Throw "Permission denied"
       else Ok (String.eqb p "R/d");
     directory_iterator p := broken [] "Permission denied" |}.

Definition chunk_d_locked : list path := ["R/d"; "R/locked/sub"].

(** The listing of [R/a/x] fails after one regular file of 5 bytes;
    [R/b/x] is empty. *)
Definition tree_xx_broken : FileSystem :=
  of_listings
    [("R/a/x", broken [regular "R/a/x/f" 5] "Permission denied");
     ("R/b/x", complete [])].

End Fixture.

(** * Properties *)

(** ** [filename] *)

Example filename_nested : filename "R/a/x" = "x".
Proof. reflexivity. Qed.

Example filename_trailing_separator : filename "R/a/" = EmptyString.
Proof. reflexivity. Qed.

Lemma has_separator_app (s t : string) :
  has_separator (s +:+ t) = has_separator s || has_separator t.
Proof.
  induction s as [|c s IH]; simpl; [done|].
  destruct (Ascii.eqb c "/"); [done|]. apply IH.
Qed.

(** The final component of [dir/name] is [name]. *)
Lemma filename_join (dir name : string) :
  has_separator name = false →
  filename (dir +:+ String "/" name) = name.
Proof.
  intros Hname. induction dir as [|c dir IH]; simpl.
  - by rewrite Hname.
  - rewrite has_separator_app. simpl. by rewrite orb_true_r.
Qed.

(** ** The subscript operator of the map *)

Section subscript.
Implicit Types (m : map_type) (k : string) (i : Extension_info).

Lemma subscript_Some m k i : m !! k = Some i → subscript m k = i.
Proof. unfold subscript. by intros ->. Qed.

Lemma subscript_None m k : m !! k = None → subscript m k = zero_info.
Proof. unfold subscript. by intros ->. Qed.

Lemma subscript_insert m k i : subscript (<[k := i]> m) k = i.
Proof. unfold subscript. by rewrite lookup_insert_eq. Qed.

Lemma subscript_update_twice m k f g :
  subscript_update (subscript_update m k f) k g
  = <[k := g (f (subscript m k))]> m.
Proof.
  unfold subscript_update. by rewrite subscript_insert, insert_insert_eq.
Qed.

(** Lines 40-41 leave a zeroed record under the name. *)
Lemma reset_entry m k :
  subscript_update (subscript_update m k (set_num_files 0)) k (set_total_size 0)
  = <[k := zero_info]> m.
Proof. by rewrite subscript_update_twice. Qed.

(** Lines 26-27 add both fields of the partial entry to the global one. *)
Lemma merge_entry_insert m k i :
  merge_entry m (k, i) = <[k := combine (subscript m k) i]> m.
Proof. unfold merge_entry. by rewrite subscript_update_twice. Qed.
End subscript.

(** ** The scan of one directory *)

Section scan.
Implicit Types (res : map_type) (i : Extension_info) (l : list directory_entry).

(** The [try] block touches the entry [dir_name] only, and what it
    leaves there is a function of what it found there and of the
    listing. *)
Lemma scan_entries_spec res dir_name i last l :
  res !! dir_name = Some i →
  scan_entries res dir_name last l
  = (<[dir_name := (scan_info i last l).1]> res, (scan_info i last l).2).
Proof.
  revert res i. induction l as [|e rest IH]; intros res i Hi; simpl.
  - by rewrite insert_id.
  - destruct (entry_is_regular_file e) as [[|]|what]; simpl.
    + destruct (entry_file_size e) as [sz|what]; simpl.
      * rewrite subscript_update_twice, (subscript_Some _ _ _ Hi).
        erewrite IH by apply lookup_insert_eq. by rewrite insert_insert_eq.
      * unfold subscript_update. by rewrite (subscript_Some _ _ _ Hi).
    + by apply IH.
    + by rewrite insert_id.
Qed.
End scan.

(** ** What the scan of one directory computes *)

Section dir_stats.
Implicit Types (i : Extension_info) (l good : list directory_entry) (d : dir_listing).

Lemma UINTMAX_MOD_pos : UINTMAX_MOD ≠ 0.
Proof. done. Qed.

Lemma wrap_uintmax_lt n : wrap_uintmax n < UINTMAX_MOD.
Proof. apply N.mod_lt, UINTMAX_MOD_pos. Qed.

Lemma wrap_uintmax_small n : n < UINTMAX_MOD → wrap_uintmax n = n.
Proof. apply N.mod_small. Qed.

Lemma wrap_uintmax_add_l a b : wrap_uintmax (wrap_uintmax a + b) = wrap_uintmax (a + b).
Proof. unfold wrap_uintmax. by rewrite N.Div0.add_mod_idemp_l. Qed.

Lemma wrap_uintmax_add_r a b : wrap_uintmax (a + wrap_uintmax b) = wrap_uintmax (a + b).
Proof. unfold wrap_uintmax. by rewrite N.Div0.add_mod_idemp_r. Qed.

Lemma readable_regular_size e :
  readable e →
  (entry_is_regular_file e = Ok false ∧ regular_size e = None)
  ∨ ∃ sz, entry_is_regular_file e = Ok true ∧ entry_file_size e = Ok sz
          ∧ regular_size e = Some sz.
Proof.
  unfold regular_size. intros [H|[H [sz Hsz]]]; rewrite H.
  - by left.
  - right. exists sz. by rewrite Hsz.
Qed.

(** Going through readable entries adds their number and their sizes to
    the record, in 64-bit arithmetic. *)
Lemma scan_info_readable i last good rest :
  Forall readable good →
  scan_info i last (good ++ rest)
  = scan_info
      {| num_files :=
           if decide (omap regular_size good = [])
           then num_files i
           else wrap_uintmax (num_files i + N.of_nat (length (omap regular_size good)));
         total_size :=
           if decide (omap regular_size good = [])
           then total_size i
           else wrap_uintmax (total_size i + sum_sizes (omap regular_size good)) |}
      last rest.
Proof.
  intros Hgood. revert i. induction Hgood as [|e good He _ IH]; intros i; simpl.
  - by destruct i.
  - destruct (readable_regular_size e He) as [[-> ->]|(sz & -> & -> & ->)]; simpl.
    + apply IH.
    + rewrite IH. simpl.
      change (list_omap _ _ regular_size good) with (omap regular_size good).
      f_equal. f_equal.
      * case_decide as Hnil; [rewrite Hnil; simpl; f_equal; lia|].
        rewrite wrap_uintmax_add_l. f_equal. lia.
      * case_decide as Hnil; [rewrite Hnil; simpl; f_equal; lia|].
        rewrite wrap_uintmax_add_l. f_equal. lia.
Qed.

Lemma scan_info_readable_zero last good rest :
  Forall readable good →
  scan_info zero_info last (good ++ rest)
  = scan_info (wrap_info (exact_stats good)) last rest.
Proof.
  intros Hgood. rewrite scan_info_readable by done. f_equal.
  unfold wrap_info, exact_stats. simpl.
  case_decide as Hnil; [by rewrite Hnil|done].
Qed.

(** A complete, readable listing: the record holds the number of
    regular files and the sum of their sizes, modulo 2^64, and nothing
    is caught. *)
Lemma dir_stats_clean d :
  clean d →
  dir_stats d = wrap_info (exact_stats (yielded d)) ∧ dir_caught d = None.
Proof.
  intros [Hlast Hread]. unfold dir_stats, dir_caught.
  rewrite <-(app_nil_r (yielded d)) at 1 3.
  rewrite scan_info_readable_zero by done. simpl. by rewrite Hlast.
Qed.

(** The scan stops on the first exception: the record keeps what the
    entries before it contributed, whatever comes after. *)
Lemma dir_stats_fails_after d good what :
  fails_after d good what →
  dir_stats d = wrap_info (exact_stats good) ∧ dir_caught d = Some what.
Proof.
  intros [Hread [[Hl Hlast]|(e & rest & Hl & He)]]; unfold dir_stats, dir_caught.
  - rewrite Hl, Hlast. rewrite <-(app_nil_r good) at 1 3.
    by rewrite scan_info_readable_zero.
  - rewrite Hl, scan_info_readable_zero by done. simpl. by rewrite He.
Qed.

(** When the size of a regular file cannot be read, the file has already
    been counted. *)
Lemma dir_stats_size_fails_after d good what :
  size_fails_after d good what →
  dir_stats d = add_num_files 1 (wrap_info (exact_stats good))
  ∧ dir_caught d = Some what.
Proof.
  intros [Hread (e & rest & Hl & He & Hsz)]. unfold dir_stats, dir_caught.
  rewrite Hl, scan_info_readable_zero by done. simpl. by rewrite He, Hsz.
Qed.

End dir_stats.

(** ** The loop of [generate_map] *)

Section generate.
Variable fs : FileSystem.
Implicit Types (chunk before after : list path) (res : map_type) (p : path).

Lemma is_dir_true p : is_dir fs p = true ↔ is_directory fs p = Ok true.
Proof. unfold is_dir. destruct (is_directory fs p) as [[|]|]; naive_solver. Qed.

Lemma status_ok_app before after :
  status_ok fs (before ++ after) ↔ status_ok fs before ∧ status_ok fs after.
Proof. apply Forall_app. Qed.

Lemma caught_in_cons p chunk :
  caught_in fs (p :: chunk)
  = (if is_dir fs p then caught_output (dir_caught (directory_iterator fs p)) else [])
    ++ caught_in fs chunk.
Proof. done. Qed.

(** When every status query returns, the loop runs to its end: it
    replaces the entry of each directory it meets by the result of
    scanning that directory, and writes one line per exception caught. *)
Lemma generate_loop_ok chunk res out :
  status_ok fs chunk →
  generate_loop fs chunk res out
  = Ok (scan_chunk fs chunk res, out ++ caught_in fs chunk).
Proof.
  intros Hok. revert res out.
  induction Hok as [|p chunk [b Hb] _ IH]; intros res out.
  - simpl. by rewrite app_nil_r.
  - rewrite caught_in_cons. simpl.
    unfold is_dir. rewrite Hb. destruct b; simpl.
    + rewrite reset_entry.
      erewrite scan_entries_spec by apply lookup_insert_eq.
      rewrite insert_insert_eq, IH. by rewrite <-app_assoc.
    + apply IH.
Qed.

(** The only exception that leaves the loop is one thrown by a status
    query of line 38. *)
Lemma generate_loop_throw chunk res out what :
  generate_loop fs chunk res out = Throw what ↔
  ∃ before p after, chunk = before ++ p :: after
    ∧ status_ok fs before ∧ is_directory fs p = Throw what.
Proof.
  revert res out. induction chunk as [|q chunk IH]; intros res out; simpl.
  - split; [done|]. intros (before & p & after & Hc & _). by destruct before.
  - destruct (is_directory fs q) as [b|w] eqn:Hq.
    + assert (∀ res' out', generate_loop fs chunk res' out' = Throw what ↔
        ∃ before p after, q :: chunk = before ++ p :: after
          ∧ status_ok fs before ∧ is_directory fs p = Throw what) as Hstep.
      { intros res' out'. rewrite IH. split.
        - intros (before & p & after & -> & Hok & Hp).
          exists (q :: before), p, after. split_and!; [done| |done].
          constructor; eauto.
        - intros (before & p & after & Hc & Hok & Hp).
          destruct before as [|q' before]; simplify_eq/=; [congruence|].
          apply Forall_cons in Hok as [_ Hok]. eauto 6. }
      destruct b; [|apply Hstep].
      destruct (scan_entries _ _ _ _). apply Hstep.
    + split.
      * intros [= <-]. exists [], q, chunk. split_and!; [done|constructor|done].
      * intros (before & p & after & Hc & Hok & Hp).
        destruct before as [|q' before]; simplify_eq/=; [congruence|].
        apply Forall_cons in Hok as [[b Hb] _]. congruence.
Qed.

Lemma generate_map_ok chunk :
  status_ok fs chunk →
  generate_map fs chunk
  = Ok (scan_chunk fs chunk ∅,
        caught_in fs chunk ++ debug_lines (scan_chunk fs chunk ∅)).
Proof. intros Hok. unfold generate_map. by rewrite generate_loop_ok. Qed.

Lemma generate_map_throw chunk what :
  generate_map fs chunk = Throw what ↔
  ∃ before p after, chunk = before ++ p :: after
    ∧ status_ok fs before ∧ is_directory fs p = Throw what.
Proof.
  rewrite <-(generate_loop_throw chunk ∅ []). unfold generate_map.
  destruct (generate_loop fs chunk ∅ []) as [[res out]|w]; naive_solver.
Qed.

Lemma scan_chunk_app before after res :
  scan_chunk fs (before ++ after) res = scan_chunk fs after (scan_chunk fs before res).
Proof.
  revert res. induction before as [|p before IH]; intros res; simpl; [done|].
  destruct (is_dir fs p); apply IH.
Qed.

(** A name that no directory of the chunk bears is left alone. *)
Lemma scan_chunk_lookup_other chunk res name :
  (∀ q, q ∈ chunk → is_directory fs q = Ok true → filename q ≠ name) →
  scan_chunk fs chunk res !! name = res !! name.
Proof.
  revert res. induction chunk as [|p chunk IH]; intros res Hother; simpl; [done|].
  assert (∀ res', scan_chunk fs chunk res' !! name = res' !! name) as Hrest.
  { intros res'. apply IH. intros q Hq. apply Hother. by right. }
  destruct (is_dir fs p) eqn:Hp; rewrite Hrest; [|done].
  apply lookup_insert_ne, Hother; [by left|by apply is_dir_true].
Qed.

(** The entry of a name is the result of scanning the last directory of
    the chunk that bears it. *)
Lemma scan_chunk_lookup_last chunk res p :
  last_of_its_name fs chunk p →
  scan_chunk fs chunk res !! filename p = Some (dir_stats (directory_iterator fs p)).
Proof.
  intros (before & after & -> & Hp & Hafter).
  rewrite scan_chunk_app. simpl. apply is_dir_true in Hp as ->.
  rewrite scan_chunk_lookup_other by done. apply lookup_insert_eq.
Qed.

(** The keys of the result: those already there and the final name
    components of the directories of the chunk. *)
Lemma scan_chunk_is_Some chunk res name :
  is_Some (scan_chunk fs chunk res !! name) ↔
  is_Some (res !! name)
  ∨ ∃ p, p ∈ chunk ∧ is_directory fs p = Ok true ∧ filename p = name.
Proof.
  revert res. induction chunk as [|p chunk IH]; intros res; simpl.
  - split; [by left|]. intros [?|(p & Hp & _)]; [done|]. by apply elem_of_nil in Hp.
  - destruct (is_dir fs p) eqn:Hp; rewrite IH.
    + apply is_dir_true in Hp. rewrite lookup_insert_is_Some. split.
      * intros [[<-|[_ ?]]|(q & Hq & ?)]; [right|by left|right].
        -- exists p. split; [by left|done].
        -- exists q. split; [by right|done].
      * intros [?|(q & Hq & Hdir & <-)].
        -- destruct (decide (filename p = name)); [left; by left|].
           left. by right.
        -- apply elem_of_cons in Hq as [->|Hq]; [left; by left|].
           right. eauto.
    + apply not_true_iff_false in Hp. rewrite is_dir_true in Hp. split.
      * intros [?|(q & Hq & ?)]; [by left|]. right. exists q. split; [by right|done].
      * intros [?|(q & Hq & Hdir & <-)]; [by left|].
        apply elem_of_cons in Hq as [->|Hq]; [done|]. right. eauto.
Qed.
End generate.

Section generate_frame.
Implicit Types (fs : FileSystem) (chunk : list path) (res : map_type).




(** Two file systems that differ in the listing of [d] only give every
    name other than that of [d] the same entry. *)
Lemma scan_chunk_frame fs fs' d chunk res res' name :
  (∀ p, is_directory fs' p = is_directory fs p) →
  (∀ p, p ≠ d → directory_iterator fs' p = directory_iterator fs p) →
  name ≠ filename d →
  res' !! name = res !! name →
  scan_chunk fs' chunk res' !! name = scan_chunk fs chunk res !! name.
Proof.
  intros Hstatus Hlisting Hname. revert res res'.
  induction chunk as [|p chunk IH]; intros res res' Hres; simpl; [done|].
  unfold is_dir. rewrite Hstatus. destruct (is_directory fs p) as [[|]|]; auto.
  apply IH. destruct (decide (filename p = name)) as [<-|Hne].
  - rewrite !lookup_insert_eq, Hlisting; [done|]. by intros ->.
  - by rewrite !lookup_insert_ne.
Qed.
End generate_frame.

(** ** Facts about the example file systems *)

Create HintDb fixtures.

Lemma readable_regular (p : path) (sz : N) : readable (Fixture.regular p sz).
Proof. right. split; [done|by eexists]. Qed.

Lemma readable_other (p : path) : readable (Fixture.other p).
Proof. by left. Qed.

Lemma status_ok_of_listings (dirs : list (path * dir_listing)) (chunk : list path) :
  status_ok (Fixture.of_listings dirs) chunk.
Proof. apply Forall_forall. intros p _. by eexists. Qed.

(** Settles a goal about every member [q] of a concrete list by going
    through the members. *)
Ltac check_members Hq :=
  set_unfold in Hq;
  repeat (destruct Hq as [-> | Hq]; [by vm_compute|]);
  done.

#[export] Hint Resolve readable_regular readable_other status_ok_of_listings : fixtures.
#[export] Hint Constructors Forall : fixtures.

(** ** Properties of [generate_map] *)

(** C1, as stated, fails.  In the chunk [R/a/x; R/b/x; R/d] the listing
    of [R/d] raises an error; [R/a/x] is another directory of the chunk
    and holds one regular file of 5 bytes, yet the entry of its name [x]
    holds 0 files and 0 bytes, because [R/b/x] has the same final name.
    And in the chunk [R/d; R/locked/sub] the listing of [R/d] raises an
    error that is caught, but the status query of [R/locked/sub] throws
    outside the [try] block and the exception leaves [generate_map]. *)
Lemma generate_map_fault_isolation_counterexample :
  fails_after (directory_iterator Fixture.tree_xxd "R/d") [] "Permission denied"
  ∧ ¬ (∀ res out, generate_map Fixture.tree_xxd Fixture.chunk_xxd = Ok (res, out) →
         ∀ p, p ∈ Fixture.chunk_xxd → is_directory Fixture.tree_xxd p = Ok true →
           p ≠ "R/d" →
           res !! filename p
           = Some (exact_stats (yielded (directory_iterator Fixture.tree_xxd p))))
  ∧ fails_after (directory_iterator Fixture.tree_d_locked "R/d") [] "Permission denied"
  ∧ generate_map Fixture.tree_d_locked Fixture.chunk_d_locked
    = Throw "Permission denied".
Proof.
  split_and!.
  - split; [constructor|left; split; reflexivity].
  - intros Hclaim.
    specialize (Hclaim _ _ (generate_map_ok _ _ (status_ok_of_listings _ _)) "R/a/x").
    specialize (Hclaim (list_elem_of_here _ _) eq_refl).
    assert ("R/a/x" ≠ "R/d") as Hne by discriminate.
    specialize (Hclaim Hne). vm_compute in Hclaim. discriminate Hclaim.
  - split; [constructor|left; split; reflexivity].
  - reflexivity.
Qed.

(** C1, amended.  Fault isolation in the chunk aggregator.  Provided the
    status queries of line 38 return, [generate_map] returns whatever
    happens while the directories are listed: an exception thrown by a
    directory iterator, by the file-type query or by the file-size query
    of a child is caught and written to [std::cerr]; the remaining
    children of that directory are not visited and the scan resumes at the
    next path of the chunk; the failing directory, when it is the last of
    its name in the chunk, keeps what was counted before the exception;
    every other directory that is the last of its name in the chunk and
    lists cleanly gets its exact statistics (modulo 2^64); and the
    entries of the other names do not depend on the listing that
    failed. *)
Theorem generate_map_fault_isolation (fs : FileSystem) (chunk : list path) :
  status_ok fs chunk →
  ∃ res out, generate_map fs chunk = Ok (res, out)
    ∧ (∀ p good what, p ∈ chunk → is_directory fs p = Ok true →
         fails_after (directory_iterator fs p) good what
         ∨ size_fails_after (directory_iterator fs p) good what →
         Cerr_exception what ∈ out)
    ∧ (∀ p good what, last_of_its_name fs chunk p →
         fails_after (directory_iterator fs p) good what →
         res !! filename p = Some (wrap_info (exact_stats good)))
    ∧ (∀ p good what, last_of_its_name fs chunk p →
         size_fails_after (directory_iterator fs p) good what →
         res !! filename p = Some (add_num_files 1 (wrap_info (exact_stats good))))
    ∧ (∀ p, last_of_its_name fs chunk p → clean (directory_iterator fs p) →
         res !! filename p
         = Some (wrap_info (exact_stats (yielded (directory_iterator fs p)))))
    ∧ (∀ fs' d,
         (∀ p, is_directory fs' p = is_directory fs p) →
         (∀ p, p ≠ d → directory_iterator fs' p = directory_iterator fs p) →
         ∃ res' out', generate_map fs' chunk = Ok (res', out')
           ∧ ∀ name, name ≠ filename d → res' !! name = res !! name).
Proof.
  intros Hok. eexists _, _. split; [by apply generate_map_ok|]. split_and!.
  - intros p good what Hin Hdir Hfail. apply elem_of_app. left.
    unfold caught_in. apply list_elem_of_bind. exists p. split; [|done].
    apply is_dir_true in Hdir as ->.
    destruct Hfail as [[_ ->]%dir_stats_fails_after|[_ ->]%dir_stats_size_fails_after];
      by left.
  - intros p good what Hlast [<- _]%dir_stats_fails_after.
    by apply scan_chunk_lookup_last.
  - intros p good what Hlast [<- _]%dir_stats_size_fails_after.
    by apply scan_chunk_lookup_last.
  - intros p Hlast [<- _]%dir_stats_clean. by apply scan_chunk_lookup_last.
  - intros fs' d Hstatus Hlisting. eexists _, _. split.
    + apply generate_map_ok. eapply Forall_impl; [exact Hok|].
      intros p [b Hb]. exists b. by rewrite Hstatus.
    + intros name Hname. by apply scan_chunk_frame with d.
Qed.

Lemma generate_map_fault_isolation_witness :
  status_ok Fixture.tree_faulty Fixture.chunk_faulty
  ∧ ∃ res out, generate_map Fixture.tree_faulty Fixture.chunk_faulty = Ok (res, out)
      ∧ Cerr_exception "Permission denied" ∈ out
      ∧ res !! "a" = Some {| num_files := 1; total_size := 10 |}
      ∧ res !! "b" = Some {| num_files := 1; total_size := 7 |}.
Proof.
  assert (status_ok Fixture.tree_faulty Fixture.chunk_faulty) as Hok.
  { apply status_ok_of_listings. }
  split; [exact Hok|].
  destruct (generate_map_fault_isolation _ _ Hok)
    as (res & out & Hgen & Hlog & Hkept & _ & Hclean & _).
  exists res, out. split_and!; [exact Hgen|..].
  - apply (Hlog "R/a" [Fixture.regular "R/a/f1" 10]);
      [apply list_elem_of_here|reflexivity|].
    left. split; [auto with fixtures|left; split; reflexivity].
  - apply (Hkept "R/a" [Fixture.regular "R/a/f1" 10] "Permission denied").
    + exists [], ["R/b"; "R/b/f1"; "R/c"; "R/d"]. split_and!; [reflexivity..|].
      intros q Hq _. check_members Hq.
    + split; [auto with fixtures|left; split; reflexivity].
  - apply (Hclean "R/b").
    + exists ["R/a"], ["R/b/f1"; "R/c"; "R/d"]. split_and!; [reflexivity..|].
      intros q Hq _. check_members Hq.
    + change (clean (Fixture.complete
                       [Fixture.regular "R/b/f1" 7; Fixture.other "R/b/sub"])).
      split; [reflexivity|]. simpl. auto with fixtures.
Defined.




(** C9.  When two directories of a chunk have the same final name
    component, reaching the later one puts a zeroed record under the name
    (lines 40-41) before its children are scanned, and the entry of the
    name in the result is what scanning the last such directory alone
    gives: the statistics of the earlier one are gone, not added. *)
Theorem generate_map_same_name_last_wins (fs : FileSystem)
    (before between after : list path) (p1 p2 : path) :
  let chunk := before ++ p1 :: between ++ p2 :: after in
  status_ok fs chunk →
  is_directory fs p1 = Ok true →
  is_directory fs p2 = Ok true →
  filename p1 = filename p2 →
  (∀ q, q ∈ after → is_directory fs q = Ok true → filename q ≠ filename p2) →
  (∀ res0 out0,
     generate_loop fs (p2 :: after) res0 out0
     = let '(res1, caught) :=
         scan_entries (<[filename p2 := zero_info]> res0) (filename p2)
           (iterator_throws (directory_iterator fs p2))
           (yielded (directory_iterator fs p2)) in
       generate_loop fs after res1 (out0 ++ caught_output caught))
  ∧ ∃ res out, generate_map fs chunk = Ok (res, out)
      ∧ res !! filename p1 = Some (dir_stats (directory_iterator fs p2))
      ∧ (clean (directory_iterator fs p2) →
           res !! filename p1
           = Some (wrap_info (exact_stats (yielded (directory_iterator fs p2))))).
Proof.
  intros chunk Hok Hp1 Hp2 Hname Hafter. split.
  - intros res0 out0. simpl. by rewrite Hp2, reset_entry.
  - assert (scan_chunk fs chunk ∅ !! filename p1
            = Some (dir_stats (directory_iterator fs p2))) as Hlast.
    { rewrite Hname. apply scan_chunk_lookup_last.
      exists (before ++ p1 :: between), after. split_and!; [|done..].
      unfold chunk. by rewrite <-app_assoc. }
    eexists _, _. split; [by apply generate_map_ok|]. split; [done|].
    intros [<- _]%dir_stats_clean. done.
Qed.

Lemma generate_map_same_name_last_wins_witness :
  status_ok Fixture.tree_xx ([] ++ "R/a/x" :: [] ++ "R/b/x" :: [])
  ∧ is_directory Fixture.tree_xx "R/a/x" = Ok true
  ∧ is_directory Fixture.tree_xx "R/b/x" = Ok true
  ∧ filename "R/a/x" = filename "R/b/x"
  ∧ dir_stats (directory_iterator Fixture.tree_xx "R/a/x")
    = {| num_files := 1; total_size := 5 |}
  ∧ ∃ res out, generate_map Fixture.tree_xx Fixture.chunk_xx = Ok (res, out)
      ∧ res !! "x" = Some {| num_files := 0; total_size := 0 |}.
Proof.
  assert (status_ok Fixture.tree_xx ([] ++ "R/a/x" :: [] ++ "R/b/x" :: [])) as Hok.
  { apply status_ok_of_listings. }
  split_and!; [exact Hok|reflexivity..|].
  destruct (generate_map_same_name_last_wins
              Fixture.tree_xx [] [] [] "R/a/x" "R/b/x" Hok eq_refl eq_refl eq_refl)
    as (_ & res & out & Hgen & Hres & _).
  { intros q Hq. by apply elem_of_nil in Hq. }
  exists res, out. split; [exact Hgen|exact Hres].
Defined.

(** ** [process_map] *)

Arguments process_map : simpl never.
Arguments merge_entry : simpl never.

Section process_map.
Implicit Types (P g : map_type) (c : N) (dir : string) (partials : list map_type).

Lemma entries_Permutation P : entries P ≡ₚ map_to_list P.
Proof. apply merge_sort_Permutation. Qed.

Lemma elem_of_entries P dir i : (dir, i) ∈ entries P ↔ P !! dir = Some i.
Proof. by rewrite entries_Permutation, elem_of_map_to_list. Qed.

Lemma NoDup_fst_entries P : NoDup (entries P).*1.
Proof. rewrite entries_Permutation. apply NoDup_fst_map_to_list. Qed.

Lemma NoDup_entries P : NoDup (entries P).
Proof. rewrite entries_Permutation. apply NoDup_map_to_list. Qed.

Lemma list_to_map_entries P : list_to_map (entries P) = P.
Proof.
  rewrite <-(list_to_map_to_list P) at 2.
  apply list_to_map_proper; [apply NoDup_fst_entries|apply entries_Permutation].
Qed.

Lemma length_entries P : length (entries P) = size P.
Proof. by rewrite entries_Permutation, length_map_to_list. Qed.

Lemma key_le_total : Total key_le.
Proof. intros x y. apply (total String.le). Qed.

(** The traversal is in ascending key order. *)
Lemma entries_sorted P : Sorted key_le (entries P).
Proof. apply (@Sorted_merge_sort _ key_le _ key_le_total). Qed.

(** Merging a list of entries with distinct keys adds each entry to the
    global record of its key and leaves the other keys alone. *)
Lemma foldl_merge_entry_lookup (l : list (string * Extension_info)) g dir :
  NoDup l.*1 →
  foldl merge_entry g l !! dir
  = match (list_to_map l : map_type) !! dir with
    | Some i => Some (combine (subscript g dir) i)
    | None => g !! dir
    end.
Proof.
  revert g. induction l as [|[k i] l IH]; intros g Hnodup; [done|].
  apply NoDup_cons in Hnodup as [Hk Hnodup].
  change (foldl merge_entry g ((k, i) :: l))
    with (foldl merge_entry (merge_entry g (k, i)) l).
  rewrite list_to_map_cons, IH, merge_entry_insert by done.
  destruct (decide (k = dir)) as [->|Hne].
  - rewrite lookup_insert_eq, (not_elem_of_list_to_map_1 _ dir Hk).
    by rewrite lookup_insert_eq.
  - rewrite (lookup_insert_ne _ k dir) by done.
    unfold subscript. by rewrite !lookup_insert_ne.
Qed.

(** One merge is an additive upsert: a name of the partial map gets its
    two fields added to the global record, created from zeros when the
    name is absent; any other name keeps its record. *)
Lemma process_map_lookup P g c dir :
  (process_map P g c).1 !! dir
  = match P !! dir with
    | Some i => Some (combine (subscript g dir) i)
    | None => g !! dir
    end.
Proof.
  unfold process_map. simpl.
  rewrite foldl_merge_entry_lookup by apply NoDup_fst_entries.
  by rewrite list_to_map_entries.
Qed.

Lemma process_map_counter P g c :
  (process_map P g c).2 = wrap_uintmax (c + N.of_nat (size P)).
Proof. done. Qed.

Lemma process_map_dom P g c : dom (process_map P g c).1 = dom g ∪ dom P.
Proof.
  apply set_eq. intros dir.
  rewrite elem_of_union, !elem_of_dom, process_map_lookup.
  destruct (P !! dir) as [i|]; split; eauto.
  - intros [?|[? [=]]]. done.
Qed.

Lemma merge_all_cons P partials g c :
  merge_all (P :: partials) g c
  = merge_all partials (process_map P g c).1 (process_map P g c).2.
Proof.
  unfold merge_all. cbn [foldl fst snd]. by destruct (process_map P g c).
Qed.

Lemma merge_futures_Ok partials g c :
  merge_futures (Ok <$> partials) g c = Ok (merge_all partials g c).
Proof.
  revert g c. induction partials as [|P partials IH]; intros g c; [done|].
  rewrite fmap_cons, merge_all_cons. cbn [merge_futures].
  destruct (process_map P g c) as [g1 c1]. apply IH.
Qed.

Lemma sum_over_not_mentioned (f : map_type → string → N) dir partials :
  (∀ P, P !! dir = None → f P dir = 0) →
  ¬ mentioned dir partials → sum_over (λ P, f P dir) partials = 0.
Proof.
  intros Hf. induction partials as [|P partials IH]; intros Hno; simpl; [done|].
  unfold mentioned in Hno. rewrite Exists_cons in Hno.
  rewrite IH by tauto. rewrite Hf; [done|].
  apply eq_None_not_Some. tauto.
Qed.

Lemma merge_all_not_mentioned partials g c dir :
  ¬ mentioned dir partials → (merge_all partials g c).1 !! dir = g !! dir.
Proof.
  revert g c. induction partials as [|P partials IH]; intros g c Hno; [done|].
  unfold mentioned in Hno. rewrite Exists_cons in Hno.
  rewrite merge_all_cons, IH, process_map_lookup by tauto.
  destruct (P !! dir) eqn:HP; [|done]. destruct Hno. left. by eexists.
Qed.

(** After all merges, a name mentioned by some partial map holds the
    sums of its two fields over the partial maps, taken from what the
    global map held, in 64-bit arithmetic. *)
Lemma merge_all_mentioned partials g c dir :
  mentioned dir partials →
  (merge_all partials g c).1 !! dir
  = Some {| num_files :=
              wrap_uintmax (num_files (subscript g dir)
                            + sum_over (λ P, files_in P dir) partials);
            total_size :=
              wrap_uintmax (total_size (subscript g dir)
                            + sum_over (λ P, bytes_in P dir) partials) |}.
Proof.
  revert g c. induction partials as [|P partials IH]; intros g c Hin.
  { by apply Exists_nil in Hin. }
  rewrite merge_all_cons. unfold sum_over. cbn [foldr].
  fold (sum_over (λ P, files_in P dir) partials).
  fold (sum_over (λ P, bytes_in P dir) partials).
  destruct (decide (mentioned dir partials)) as [Hrest|Hrest].
  - rewrite IH by done. unfold subscript at 1 2. rewrite process_map_lookup.
    unfold files_in, bytes_in.
    destruct (P !! dir) as [i|] eqn:HP; simpl.
    + rewrite (subscript_Some _ _ _ HP), !wrap_uintmax_add_l.
      do 3 f_equal; lia.
    + rewrite (subscript_None _ _ HP). simpl. done.
  - rewrite merge_all_not_mentioned, process_map_lookup by done.
    apply Exists_cons in Hin as [[i HP]|Hin]; [|done]. rewrite HP.
    unfold files_in at 1, bytes_in at 1. rewrite (subscript_Some _ _ _ HP).
    rewrite (sum_over_not_mentioned files_in), (sum_over_not_mentioned bytes_in);
      [by rewrite !N.add_0_r|try done..].
    + intros Q HQ. unfold bytes_in. by rewrite (subscript_None _ _ HQ).
    + intros Q HQ. unfold files_in. by rewrite (subscript_None _ _ HQ).
Qed.

Lemma merge_all_counter partials g c :
  c < UINTMAX_MOD →
  (merge_all partials g c).2
  = wrap_uintmax (c + sum_over (λ P, N.of_nat (size P)) partials).
Proof.
  revert g c. induction partials as [|P partials IH]; intros g c Hc.
  - simpl. by rewrite N.add_0_r, wrap_uintmax_small.
  - rewrite merge_all_cons, IH, process_map_counter by apply wrap_uintmax_lt.
    simpl. rewrite wrap_uintmax_add_l. f_equal. lia.
Qed.

Lemma merge_all_dom partials g c :
  dom (merge_all partials g c).1 = dom g ∪ ⋃ (dom <$> partials).
Proof.
  revert g c. induction partials as [|P partials IH]; intros g c.
  - simpl. set_solver.
  - rewrite merge_all_cons, IH, process_map_dom. simpl. set_solver.
Qed.

(** The number of keys never exceeds the number of entries merged. *)
Lemma merge_all_size_le partials g c :
  (size (merge_all partials g c).1
   ≤ size g + N.to_nat (sum_over (λ P, N.of_nat (size P)) partials))%nat.
Proof.
  revert g c. induction partials as [|P partials IH]; intros g c.
  - simpl. lia.
  - rewrite merge_all_cons. etrans; [apply IH|].
    unfold sum_over. cbn [foldr]. fold (sum_over (λ P, N.of_nat (size P)) partials).
    rewrite <-!size_dom, process_map_dom.
    pose proof (size_union_alt (dom g) (dom P)) as Hu.
    assert (size (dom P ∖ dom g) ≤ size (dom P))%nat as Hd.
    { apply subseteq_size. set_solver. }
    rewrite Hu. lia.
Qed.

(** When no two of the maps share a key, and none shares a key with the
    global map, every entry merged is a new key. *)
Lemma merge_all_size_disjoint partials g c :
  Forall (λ Q, dom g ## dom Q) partials →
  pairwise_disjoint partials →
  size (merge_all partials g c).1
  = (size g + N.to_nat (sum_over (λ P, N.of_nat (size P)) partials))%nat.
Proof.
  revert g c. induction partials as [|P partials IH]; intros g c Hg Hdisj.
  - simpl. lia.
  - apply Forall_cons in Hg as [HgP Hg]. destruct Hdisj as [HP Hdisj].
    rewrite merge_all_cons, IH; [|..|done].
    + unfold sum_over. cbn [foldr].
      fold (sum_over (λ P, N.of_nat (size P)) partials).
      rewrite <-!size_dom, process_map_dom, size_union by done. lia.
    + rewrite process_map_dom. apply Forall_forall. intros Q HQ.
      rewrite Forall_forall in Hg, HP. specialize (Hg Q HQ). specialize (HP Q HQ).
      set_solver.
Qed.
End process_map.

(** C10, as stated, fails.  In the chunk [R/a/x; R/b/x] the listing of
    [R/a/x] fails after one regular file of 5 bytes has been counted;
    when [R/b/x] is reached lines 40-41 reset the entry [x], and the map
    returned holds 0 files and 0 bytes under [x]: the counts accumulated
    before the error are gone. *)
Lemma generate_map_keeps_failed_directory_counterexample :
  fails_after (directory_iterator Fixture.tree_xx_broken "R/a/x")
              [Fixture.regular "R/a/x/f" 5] "Permission denied"
  ∧ ¬ (∀ res out, generate_map Fixture.tree_xx_broken Fixture.chunk_xx = Ok (res, out) →
         ∀ p good what, p ∈ Fixture.chunk_xx →
           is_directory Fixture.tree_xx_broken p = Ok true →
           fails_after (directory_iterator Fixture.tree_xx_broken p) good what →
           res !! filename p = Some (wrap_info (exact_stats good))).
Proof.
  assert (fails_after (directory_iterator Fixture.tree_xx_broken "R/a/x")
            [Fixture.regular "R/a/x/f" 5] "Permission denied") as Hfails.
  { split; [auto with fixtures|left; split; reflexivity]. }
  split; [exact Hfails|]. intros Hclaim.
  specialize (Hclaim _ _ (generate_map_ok _ _ (status_ok_of_listings _ _))
                "R/a/x" _ _ (list_elem_of_here _ _) eq_refl Hfails).
  vm_compute in Hclaim. discriminate Hclaim.
Qed.

(** C10, amended.  Provided the status queries of line 38 return: for
    every directory of the chunk, lines 40-41 put a zeroed record under
    its name before its children are listed, and nothing removes an entry
    afterwards, so every directory of the chunk has its name among the
    keys of the partial map; a directory that is the last of its name in
    the chunk and whose listing fails at once is there with 0 files and 0
    bytes, one whose listing fails later with what was counted before the
    exception (a later directory of the same name resets the record); the
    name is then a key of the global map after the merge, and the merge
    counts it in the progress counter. *)
Theorem generate_map_keeps_failed_directory (fs : FileSystem) (chunk : list path) :
  status_ok fs chunk →
  (∀ p rest res0 out0, is_directory fs p = Ok true →
     generate_loop fs (p :: rest) res0 out0
     = let '(res1, caught) :=
         scan_entries (<[filename p := zero_info]> res0) (filename p)
           (iterator_throws (directory_iterator fs p))
           (yielded (directory_iterator fs p)) in
       generate_loop fs rest res1 (out0 ++ caught_output caught))
  ∧ ∃ res out, generate_map fs chunk = Ok (res, out)
      ∧ (∀ p, p ∈ chunk → is_directory fs p = Ok true → is_Some (res !! filename p))
      ∧ (∀ p what, last_of_its_name fs chunk p →
           fails_after (directory_iterator fs p) [] what →
           res !! filename p = Some zero_info)
      ∧ (∀ p good what, last_of_its_name fs chunk p →
           fails_after (directory_iterator fs p) good what →
           res !! filename p = Some (wrap_info (exact_stats good)))
      ∧ (∀ p good what, last_of_its_name fs chunk p →
           size_fails_after (directory_iterator fs p) good what →
           res !! filename p = Some (add_num_files 1 (wrap_info (exact_stats good))))
      ∧ (∀ p global_map directory_counter,
           p ∈ chunk → is_directory fs p = Ok true →
           is_Some ((process_map res global_map directory_counter).1 !! filename p)
           ∧ (process_map res global_map directory_counter).2
             = wrap_uintmax (directory_counter + N.of_nat (size res))
           ∧ (0 < size res)%nat)
      ∧ (∀ p earlier later, p ∈ chunk → is_directory fs p = Ok true →
           ∃ processed_data directory_counter,
             merge_futures (Ok <$> earlier ++ res :: later) ∅ 0
             = Ok (processed_data, directory_counter)
             ∧ is_Some (processed_data !! filename p)).
Proof.
  intros Hok. split.
  { intros p rest res0 out0 Hp. simpl. by rewrite Hp, reset_entry. }
  assert (∀ p, p ∈ chunk → is_directory fs p = Ok true →
    is_Some (scan_chunk fs chunk ∅ !! filename p)) as Hkey.
  { intros p Hin Hp. apply scan_chunk_is_Some. right. by exists p. }
  eexists _, _. split; [by apply generate_map_ok|]. split_and!.
  - exact Hkey.
  - intros p what Hlast [Hstats _]%dir_stats_fails_after.
    by rewrite (scan_chunk_lookup_last _ _ _ _ Hlast), Hstats.
  - intros p good what Hlast [<- _]%dir_stats_fails_after.
    by apply scan_chunk_lookup_last.
  - intros p good what Hlast [<- _]%dir_stats_size_fails_after.
    by apply scan_chunk_lookup_last.
  - intros p g c Hin Hp. destruct (Hkey p Hin Hp) as [i Hi]. split_and!.
    + rewrite process_map_lookup, Hi. by eexists.
    + apply process_map_counter.
    + assert (size (scan_chunk fs chunk ∅) ≠ 0%nat); [|lia].
      apply map_size_non_empty_iff.
      intros Hempty. by rewrite Hempty, lookup_empty in Hi.
  - intros p earlier later Hin Hp. rewrite merge_futures_Ok.
    destruct (merge_all _ ∅ 0) as [g c] eqn:Hmerge. exists g, c. split; [done|].
    apply elem_of_dom. change g with (g, c).1. rewrite <-Hmerge, merge_all_dom.
    apply elem_of_union_r, elem_of_union_list.
    exists (dom (scan_chunk fs chunk ∅)). split.
    + apply list_elem_of_fmap. eexists. split; [done|].
      apply elem_of_app. right. by left.
    + apply elem_of_dom. by apply Hkey.
Qed.

Lemma generate_map_keeps_failed_directory_witness :
  status_ok Fixture.tree_faulty Fixture.chunk_faulty
  ∧ ∃ res out, generate_map Fixture.tree_faulty Fixture.chunk_faulty = Ok (res, out)
      ∧ res !! "d" = Some {| num_files := 0; total_size := 0 |}
      ∧ res !! "c" = Some {| num_files := 2; total_size := 1 |}.
Proof.
  assert (status_ok Fixture.tree_faulty Fixture.chunk_faulty) as Hok.
  { apply status_ok_of_listings. }
  split; [exact Hok|].
  destruct (generate_map_keeps_failed_directory _ _ Hok)
    as (_ & res & out & Hgen & _ & Hzero & _ & Hsize & _ & _).
  exists res, out. split_and!; [exact Hgen|..].
  - apply (Hzero "R/d" "Permission denied").
    + exists ["R/a"; "R/b"; "R/b/f1"; "R/c"], []. split_and!; [reflexivity..|].
      intros q Hq _. check_members Hq.
    + split; [constructor|left; split; reflexivity].
  - apply (Hsize "R/c" [Fixture.regular "R/c/f1" 1] "No such file or directory").
    + exists ["R/a"; "R/b"; "R/b/f1"], ["R/d"]. split_and!; [reflexivity..|].
      intros q Hq _. check_members Hq.
    + split; [auto with fixtures|].
      exists (Fixture.vanished "R/c/f2"), [Fixture.regular "R/c/f3" 4].
      split_and!; reflexivity.
Defined.

(** ** Properties of the merge *)

(** C2.  Merge additivity.  Merging the partial maps one after the other
    into the (initially empty) global map always succeeds; a name that
    some partial map mentions ends up with the sum of its file counts and
    the sum of its byte totals over the partial maps, in 64-bit unsigned
    arithmetic, hence exactly when the sums fit in 64 bits; a name that no
    partial map mentions is absent; so the keys of the global map are the
    union of the keys of the partial maps.  Each single merge is an
    additive upsert: the record of a name that the global map lacks is
    created from zeros, the record of a name it has is added to. *)
Theorem process_map_merge_sums (partials : list map_type) :
  ∃ processed_data directory_counter,
    merge_futures (Ok <$> partials) ∅ 0 = Ok (processed_data, directory_counter)
    ∧ (∀ dir, mentioned dir partials →
         processed_data !! dir
         = Some {| num_files := wrap_uintmax (sum_over (λ P, files_in P dir) partials);
                   total_size := wrap_uintmax (sum_over (λ P, bytes_in P dir) partials) |})
    ∧ (∀ dir, mentioned dir partials →
         sum_over (λ P, files_in P dir) partials < UINTMAX_MOD →
         sum_over (λ P, bytes_in P dir) partials < UINTMAX_MOD →
         processed_data !! dir
         = Some {| num_files := sum_over (λ P, files_in P dir) partials;
                   total_size := sum_over (λ P, bytes_in P dir) partials |})
    ∧ (∀ dir, ¬ mentioned dir partials → processed_data !! dir = None)
    ∧ dom processed_data = ⋃ (dom <$> partials)
    ∧ (∀ partial_map global_map counter dir,
         (process_map partial_map global_map counter).1 !! dir
         = match partial_map !! dir with
           | Some info => Some (combine (subscript global_map dir) info)
           | None => global_map !! dir
           end).
Proof.
  exists (merge_all partials ∅ 0).1, (merge_all partials ∅ 0).2.
  assert (∀ dir, mentioned dir partials →
    (merge_all partials ∅ 0).1 !! dir
    = Some {| num_files := wrap_uintmax (sum_over (λ P, files_in P dir) partials);
              total_size := wrap_uintmax (sum_over (λ P, bytes_in P dir) partials) |})
    as Hsum.
  { intros dir Hin. rewrite merge_all_mentioned by done.
    by rewrite (subscript_None ∅ dir (lookup_empty dir)). }
  split_and!.
  - rewrite merge_futures_Ok. by destruct (merge_all partials ∅ 0).
  - exact Hsum.
  - intros dir Hin Hfiles Hbytes.
    by rewrite Hsum, !wrap_uintmax_small.
  - intros dir Hno. by rewrite merge_all_not_mentioned.
  - rewrite merge_all_dom, dom_empty_L. by rewrite (left_id_L ∅ (∪)).
  - intros. apply process_map_lookup.
Qed.

(** C6, as stated, fails: chunks hold distinct paths, not distinct names.
    With three hardware threads the paths [R/x; R/y; R/y/x] are cut into
    [R/x] and [R/y; R/y/x]; both partial maps have the key [x], the
    counter ends at 3 and the global map has the 2 keys [x] and [y]. *)
Lemma progress_counter_counterexample :
  plan_chunks Fixture.paths_xy 3 = Some [["R/x"]; ["R/y"; "R/y/x"]]
  ∧ ∃ processed_data directory_counter printed,
      main_body Fixture.env_xy Fixture.paths_xy
      = Completed processed_data directory_counter printed
      ∧ directory_counter = 3
      ∧ N.of_nat (size processed_data) = 2
      ∧ processed_data !! "x" = Some {| num_files := 2; total_size := 10 |}.
Proof.
  split; [by vm_compute|].
  destruct (main_body Fixture.env_xy Fixture.paths_xy)
    as [|what|processed_data directory_counter printed] eqn:Hrun;
    [by vm_compute in Hrun..|].
  exists processed_data, directory_counter, printed. split; [done|].
  assert (match main_body Fixture.env_xy Fixture.paths_xy with
          | Completed g c _ => c = 3 ∧ N.of_nat (size g) = 2
              ∧ g !! "x" = Some {| num_files := 2; total_size := 10 |}
          | _ => False
          end) as Hfacts by (by vm_compute).
  by rewrite Hrun in Hfacts.
Qed.

(** C6, amended.  After all merges the progress counter is the sum of the
    key counts of the partial maps merged, modulo 2^64.  The global map
    never has more keys than that sum, and has exactly that many when no
    name is a key of two partial maps. *)
Theorem progress_counter_sum (partials : list map_type) :
  ∃ processed_data directory_counter,
    merge_futures (Ok <$> partials) ∅ 0 = Ok (processed_data, directory_counter)
    ∧ directory_counter
      = wrap_uintmax (sum_over (λ P, N.of_nat (size P)) partials)
    ∧ N.of_nat (size processed_data) ≤ sum_over (λ P, N.of_nat (size P)) partials
    ∧ (pairwise_disjoint partials →
         N.of_nat (size processed_data) = sum_over (λ P, N.of_nat (size P)) partials)
    ∧ (pairwise_disjoint partials →
         sum_over (λ P, N.of_nat (size P)) partials < UINTMAX_MOD →
         directory_counter = N.of_nat (size processed_data)).
Proof.
  exists (merge_all partials ∅ 0).1, (merge_all partials ∅ 0).2.
  assert (pairwise_disjoint partials →
    N.of_nat (size (merge_all partials ∅ 0).1)
    = sum_over (λ P, N.of_nat (size P)) partials) as Hdisj.
  { intros Hdisj. rewrite merge_all_size_disjoint; [|..|done].
    - rewrite map_size_empty. lia.
    - apply Forall_forall. intros Q _. rewrite dom_empty_L. set_solver. }
  split_and!.
  - rewrite merge_futures_Ok. by destruct (merge_all partials ∅ 0).
  - by rewrite merge_all_counter.
  - pose proof (merge_all_size_le partials ∅ 0) as Hle.
    rewrite map_size_empty in Hle. lia.
  - exact Hdisj.
  - intros Hd Hsmall. rewrite merge_all_counter, Hdisj by done.
    by apply wrap_uintmax_small.
Qed.

(** ** The report *)

Section report.
Implicit Types (m : map_type) (dir : string) (c : N) (ms : Z).

Lemma elem_of_directory_lines m dir files bytes :
  Println_directory dir files bytes ∈ directory_lines m ↔
  m !! dir = Some {| num_files := files; total_size := bytes |} ∧ files ≠ 0.
Proof.
  unfold directory_lines. rewrite list_elem_of_fmap. split.
  - intros ([k [n s]] & [= -> -> ->] & [Hn Hin]%list_elem_of_filter).
    apply elem_of_entries in Hin. simpl in Hn. split; [done|lia].
  - intros [Hin Hn]. exists (dir, {| num_files := files; total_size := bytes |}).
    split; [done|]. apply list_elem_of_filter. split; [simpl; lia|].
    by apply elem_of_entries.
Qed.

Lemma NoDup_directory_lines m : NoDup (directory_lines m).
Proof.
  unfold directory_lines. apply NoDup_fmap_2_strong.
  - intros [k1 [n1 s1]] [k2 [n2 s2]] _ _ [= -> -> ->]. done.
  - apply NoDup_filter, NoDup_entries.
Qed.

Lemma elem_of_report m c ms dir files bytes :
  Println_directory dir files bytes ∈ report m c ms ↔
  Println_directory dir files bytes ∈ directory_lines m.
Proof.
  unfold report, summary_lines. rewrite elem_of_cons, elem_of_app.
  split; [|by right; left].
  intros [[=]|[?|Hsum]]; [done|].
  apply elem_of_cons in Hsum as [[=]|Hsum].
  by apply list_elem_of_singleton in Hsum.
Qed.

(** ** The totals of the summary line *)

Lemma to_int_mod (z : Z) : (to_int (z mod 2 ^ 64) = to_int z)%Z.
Proof.
  unfold to_int. f_equal. rewrite (Z.mod_eq z (2 ^ 64)) by lia.
  replace (z - 2 ^ 64 * (z / 2 ^ 64) + 2 ^ 31)%Z
    with (z + 2 ^ 31 + (- (2 ^ 32 * (z / 2 ^ 64))) * 2 ^ 32)%Z by lia.
  apply Z.mod_add. lia.
Qed.

Lemma to_int_add_l (a b : Z) : (to_int (to_int a + b) = to_int (a + b))%Z.
Proof.
  unfold to_int. f_equal.
  replace ((a + 2 ^ 31) mod 2 ^ 32 - 2 ^ 31 + b + 2 ^ 31)%Z
    with ((a + 2 ^ 31) mod 2 ^ 32 + b)%Z by lia.
  rewrite Z.add_mod_idemp_l by lia. f_equal. lia.
Qed.

Lemma to_int_small (z : Z) : (- 2 ^ 31 ≤ z < 2 ^ 31)%Z → to_int z = z.
Proof. intros Hz. unfold to_int. rewrite Z.mod_small; lia. Qed.

(** One step adds the field to the accumulator and reduces the sum to
    an [int]. *)
Lemma accumulate_step_spec field (acc : Z) (e : string * Extension_info) :
  accumulate_step field acc e = to_int (acc + Z.of_N (field e.2)).
Proof.
  unfold accumulate_step, wrap_uintmax, int_to_uintmax, UINTMAX_MOD.
  rewrite <-(to_int_mod (acc + _)). f_equal.
  rewrite N2Z.inj_mod, N2Z.inj_add.
  rewrite Z2N.id by (apply Z.mod_pos_bound; lia).
  change (Z.of_N (2 ^ 64)) with (2 ^ 64)%Z.
  by rewrite Z.add_mod_idemp_l by lia.
Qed.

Lemma foldl_accumulate_step field (l : list (string * Extension_info)) (z : Z) :
  foldl (accumulate_step field) (to_int z) l
  = to_int (z + foldr (λ e acc, Z.of_N (field e.2) + acc) 0 l)%Z.
Proof.
  revert z. induction l as [|e l IH]; intros z; simpl.
  - by rewrite Z.add_0_r.
  - rewrite accumulate_step_spec, to_int_add_l, IH. f_equal. lia.
Qed.

(** Both totals are the sums of the field over the entries, reduced to
    a 32-bit signed integer; they are the sums themselves only below
    2^31. *)
Lemma total_is_truncated_sum field m :
  foldl (accumulate_step field) 0%Z (entries m) = to_int (sum_field field m).
Proof. apply (foldl_accumulate_step field (entries m) 0). Qed.

Lemma total_exact_when_small field m :
  (sum_field field m < 2 ^ 31)%Z →
  foldl (accumulate_step field) 0%Z (entries m) = sum_field field m.
Proof.
  intros Hsmall. rewrite total_is_truncated_sum. apply to_int_small.
  split; [|done]. unfold sum_field.
  induction (entries m) as [|e l IH]; simpl; lia.
Qed.
End report.

(** The end-to-end example: [R/a] with three regular files of 10, 20 and
    30 bytes and an empty [R/b], scanned with three hardware threads. *)
Example end_to_end_example :
  ∃ processed_data printed,
    main_body (Fixture.env_ab 3) Fixture.paths_ab = Completed processed_data 2 printed
    ∧ processed_data !! "a" = Some {| num_files := 3; total_size := 60 |}
    ∧ processed_data !! "b" = Some {| num_files := 0; total_size := 0 |}
    ∧ report processed_data 2 7
      = [Println_header; Println_directory "a" 3 60; Println_blank;
         Println_total 3 60 2 7].
Proof.
  destruct (main_body (Fixture.env_ab 3) Fixture.paths_ab)
    as [|what|processed_data directory_counter printed] eqn:Hrun;
    [vm_compute in Hrun; discriminate Hrun..|].
  assert (match main_body (Fixture.env_ab 3) Fixture.paths_ab with
          | Completed g c out =>
              c = 2
              ∧ g !! "a" = Some {| num_files := 3; total_size := 60 |}
              ∧ g !! "b" = Some {| num_files := 0; total_size := 0 |}
              ∧ report g 2 7
                = [Println_header; Println_directory "a" 3 60; Println_blank;
                   Println_total 3 60 2 7]
          | _ => False
          end) as Hfacts by (vm_compute; repeat split).
  rewrite Hrun in Hfacts. destruct Hfacts as (Hc & Ha & Hb & Hreport).
  exists processed_data, printed. rewrite Hc.
  split; [reflexivity|]. split; [exact Ha|]. split; [exact Hb|exact Hreport].
Qed.

(** C8.  Zero-file filtering.  The report has a directory line for a name
    exactly when the global map holds that name with a non-zero file
    count, the line shows the two fields of the entry, and no line is
    printed twice; an entry whose file count is zero is in the map but has
    no line. *)
Theorem report_directory_lines (processed_data : map_type)
    (directory_counter : N) (ms : Z) :
  (∀ dir files bytes,
     Println_directory dir files bytes ∈ report processed_data directory_counter ms ↔
     processed_data !! dir = Some {| num_files := files; total_size := bytes |}
     ∧ files ≠ 0)
  ∧ (∀ dir info files bytes,
       processed_data !! dir = Some info → num_files info = 0 →
       Println_directory dir files bytes ∉ report processed_data directory_counter ms)
  ∧ NoDup (directory_lines processed_data)
  ∧ report processed_data directory_counter ms
    = Println_header :: directory_lines processed_data
        ++ summary_lines processed_data directory_counter ms.
Proof.
  split_and!.
  - intros dir files bytes. by rewrite elem_of_report, elem_of_directory_lines.
  - intros dir info files bytes Hin Hzero.
    rewrite elem_of_report, elem_of_directory_lines, Hin.
    intros [[= ->] Hne]. by simpl in Hzero.
  - apply NoDup_directory_lines.
  - done.
Qed.

(** C7 fails on the code: the byte total of the summary line is an [int].
    For a tree with one directory that holds one regular file of 2^31
    bytes, the sum of the byte totals is 2147483648 and the summary line
    shows -2147483648. *)
Theorem total_space_truncated :
  ∃ processed_data printed,
    main_body Fixture.env_big Fixture.paths_big = Completed processed_data 1 printed
    ∧ processed_data !! "big" = Some {| num_files := 1; total_size := 2147483648 |}
    ∧ sum_field total_size processed_data = 2147483648%Z
    ∧ total_space processed_data = (-2147483648)%Z
    ∧ Println_total 1 (-2147483648) 1 7 ∈ printed.
Proof.
  destruct (main_body Fixture.env_big Fixture.paths_big)
    as [|what|processed_data directory_counter printed] eqn:Hrun;
    [vm_compute in Hrun; discriminate Hrun..|].
  assert (match main_body Fixture.env_big Fixture.paths_big with
          | Completed g c out =>
              c = 1
              ∧ g !! "big" = Some {| num_files := 1; total_size := 2147483648 |}
              ∧ sum_field total_size g = 2147483648%Z
              ∧ total_space g = (-2147483648)%Z
              ∧ out !! 4%nat = Some (Println_total 1 (-2147483648) 1 7)
          | _ => False
          end) as Hfacts by (vm_compute; repeat split).
  rewrite Hrun in Hfacts. destruct Hfacts as (Hc & Hbig & Hsum & Htotal & Hout).
  exists processed_data, printed. rewrite Hc.
  split; [reflexivity|]. split; [exact Hbig|]. split; [exact Hsum|].
  split; [exact Htotal|]. exact (list_elem_of_lookup_2 _ _ _ Hout).
Qed.

(** ** The partition of the path list *)

Section plan.
Implicit Types (paths : list path) (k sz : nat).

Lemma length_even_chunks paths k sz : length (even_chunks paths k sz) = k.
Proof. unfold even_chunks. by rewrite length_fmap, length_seq. Qed.

Lemma even_chunks_S paths k sz :
  even_chunks paths (S k) sz
  = even_chunks paths k sz ++ [take sz (drop (k * sz) paths)].
Proof. unfold even_chunks. by rewrite seq_S, fmap_app. Qed.

(** Consecutive slices glue back into a prefix of the list. *)
Lemma concat_even_chunks paths k sz :
  concat (even_chunks paths k sz) = take (k * sz) paths.
Proof.
  induction k as [|k IH]; [done|].
  rewrite even_chunks_S, concat_app, IH. simpl. rewrite app_nil_r.
  rewrite take_take_drop. f_equal. lia.
Qed.

Lemma even_chunks_lengths paths k sz :
  (k * sz ≤ length paths)%nat →
  Forall (λ chunk, length chunk = sz) (even_chunks paths k sz).
Proof.
  intros Hfit. apply Forall_fmap, Forall_forall. intros i Hi. simpl.
  apply elem_of_seq in Hi. rewrite length_take_le; [done|].
  rewrite length_drop. nia.
Qed.

Lemma even_chunks_lookup paths k sz i chunk :
  even_chunks paths k sz !! i = Some chunk →
  chunk = take sz (drop (i * sz) paths).
Proof.
  unfold even_chunks. rewrite list_lookup_fmap.
  destruct (seq 0 k !! i) as [j|] eqn:Hj; [|done].
  apply lookup_seq in Hj as [-> _]. by intros [= <-].
Qed.

Lemma even_chunks_zero paths k : even_chunks paths k 0 = replicate k [].
Proof.
  induction k as [|k IH]; [done|].
  rewrite even_chunks_S, IH. simpl. by rewrite <-replicate_S_end.
Qed.

Lemma num_futures_pos (hardw_threads : N) :
  1 ≤ hardw_threads < UINT_MOD →
  num_futures hardw_threads = hardw_threads - 1.
Proof.
  intros Hh. unfold num_futures, wrap_uint, UINT_MOD in *.
  replace (hardw_threads + 2 ^ 32 - 1) with (hardw_threads - 1 + 1 * 2 ^ 32) by lia.
  rewrite N.Div0.mod_add. apply N.mod_small. lia.
Qed.

(** With no hardware thread reported, line 91 wraps around. *)
Lemma num_futures_zero : num_futures 0 = 4294967295.
Proof. reflexivity. Qed.

(** A chunk other than the last one. *)
Lemma chunk_at_inner paths (workers chunk_sz : N) (i : nat) :
  N.of_nat (length paths) < UINTMAX_MOD →
  1 ≤ workers < UINT_MOD →
  (N.of_nat i + 1) * chunk_sz ≤ N.of_nat (length paths) →
  N.of_nat i < workers - 1 →
  chunk_at paths workers chunk_sz (N.of_nat i)
  = Some (take (N.to_nat chunk_sz) (drop (i * N.to_nat chunk_sz) paths)).
Proof.
  intros Hlen Hw Hfit Hi. unfold chunk_at.
  assert (wrap_uint (workers + UINT_MOD - 1) = workers - 1) as ->.
  { apply (num_futures_pos workers Hw). }
  assert (wrap_size_t (N.of_nat i * chunk_sz) = N.of_nat i * chunk_sz) as ->.
  { apply N.mod_small. nia. }
  rewrite decide_False by lia. unfold slice.
  rewrite decide_True by (split; lia). f_equal.
  replace (N.of_nat i * chunk_sz + chunk_sz - N.of_nat i * chunk_sz) with chunk_sz by lia.
  by rewrite N2Nat.inj_mul, Nat2N.id.
Qed.

(** The last chunk runs to the end of the list. *)
Lemma chunk_at_last paths (workers chunk_sz : N) :
  N.of_nat (length paths) < UINTMAX_MOD →
  1 ≤ workers < UINT_MOD →
  (workers - 1) * chunk_sz ≤ N.of_nat (length paths) →
  chunk_at paths workers chunk_sz (workers - 1)
  = Some (drop (N.to_nat (workers - 1) * N.to_nat chunk_sz) paths).
Proof.
  intros Hlen Hw Hfit. unfold chunk_at.
  assert (wrap_uint (workers + UINT_MOD - 1) = workers - 1) as ->.
  { apply (num_futures_pos workers Hw). }
  assert (wrap_size_t ((workers - 1) * chunk_sz) = (workers - 1) * chunk_sz) as ->.
  { apply N.mod_small. lia. }
  rewrite decide_True by done. unfold slice.
  rewrite decide_True by lia. f_equal.
  replace (N.to_nat ((workers - 1) * chunk_sz))
    with (N.to_nat (workers - 1) * N.to_nat chunk_sz)%nat by lia.
  apply take_ge. rewrite length_drop. lia.
Qed.

(** The chunks the loop of lines 97-107 builds: all but the last have
    [paths.size() / hardw_threads] elements, the last has the rest. *)
Lemma plan_chunks_spec paths (hardw_threads : N) :
  N.of_nat (length paths) < UINTMAX_MOD →
  2 ≤ hardw_threads < UINT_MOD →
  plan_chunks paths hardw_threads
  = Some (even_chunks paths (N.to_nat (hardw_threads - 2))
                      (N.to_nat (N.of_nat (length paths) / hardw_threads))
          ++ [drop (N.to_nat (hardw_threads - 2)
                    * N.to_nat (N.of_nat (length paths) / hardw_threads)) paths]).
Proof.
  intros Hlen Hh. unfold plan_chunks, max_chunk_sz.
  rewrite decide_False by lia.
  rewrite num_futures_pos by lia.
  set (chunk_sz := N.of_nat (length paths) / hardw_threads).
  assert (hardw_threads * chunk_sz ≤ N.of_nat (length paths)) as Hfit.
  { apply N.Div0.mul_div_le. }
  replace (N.to_nat (hardw_threads - 1)) with (S (N.to_nat (hardw_threads - 2))) by lia.
  rewrite seq_S. simpl. apply mapM_Some, Forall2_app.
  - apply Forall2_fmap_r, Forall_Forall2_diag, Forall_forall. intros i Hi.
    apply elem_of_seq in Hi. apply chunk_at_inner; [done|lia|nia|lia].
  - constructor; [|constructor].
    replace (N.of_nat (N.to_nat (hardw_threads - 2))) with (hardw_threads - 1 - 1) by lia.
    rewrite chunk_at_last; [|done|lia|nia].
    do 3 f_equal. lia.
Qed.

(** With a single hardware thread no task is launched. *)
Lemma plan_chunks_one paths : plan_chunks paths 1 = Some [].
Proof. unfold plan_chunks, max_chunk_sz. by rewrite decide_False. Qed.

(** With no hardware thread reported, line 92 divides by zero. *)
Lemma plan_chunks_zero paths :
  max_chunk_sz paths 0 = None ∧ plan_chunks paths 0 = None.
Proof. done. Qed.
End plan.

(** C3.  Partition coverage.  With [W >= 1] tasks, that is with at least
    two hardware threads, the loop of lines 97-107 hands out [W] chunks;
    chunk [i] is the slice of the path list that starts at offset
    [i * (N / (W + 1))], so the chunks are contiguous and in order, and
    their concatenation is the path list; every chunk but the last has
    [N / (W + 1)] elements, and the last one has as many plus all that
    remains. *)
Theorem plan_chunks_partition (paths : list path) (hardw_threads : N) :
  N.of_nat (length paths) < UINTMAX_MOD →
  2 ≤ hardw_threads < UINT_MOD →
  let workers := num_futures hardw_threads in
  let chunk_sz := N.of_nat (length paths) / hardw_threads in
  workers = hardw_threads - 1
  ∧ ∃ chunks last, plan_chunks paths hardw_threads = Some (chunks ++ [last])
      ∧ N.of_nat (length (chunks ++ [last])) = workers
      ∧ concat (chunks ++ [last]) = paths
      ∧ (∀ i chunk, (chunks ++ [last]) !! i = Some chunk →
           chunk = take (length chunk) (drop (i * N.to_nat chunk_sz) paths))
      ∧ Forall (λ chunk, N.of_nat (length chunk) = chunk_sz) chunks
      ∧ N.of_nat (length last)
        = chunk_sz + (N.of_nat (length paths) - workers * chunk_sz).
Proof.
  intros Hlen Hh workers chunk_sz.
  assert (workers = hardw_threads - 1) as Hworkers.
  { apply num_futures_pos. lia. }
  split; [exact Hworkers|].
  assert (hardw_threads * chunk_sz ≤ N.of_nat (length paths)) as Hfit.
  { apply N.Div0.mul_div_le. }
  set (k := N.to_nat (hardw_threads - 2)).
  set (sz := N.to_nat chunk_sz).
  assert (k * sz ≤ length paths)%nat as Hfit' by nia.
  pose proof (even_chunks_lengths paths k sz Hfit') as Hlens.
  exists (even_chunks paths k sz), (drop (k * sz) paths).
  split; [by apply plan_chunks_spec|]. split_and!.
  - rewrite length_app, length_even_chunks. simpl. lia.
  - rewrite concat_app, concat_even_chunks. simpl.
    by rewrite app_nil_r, take_drop.
  - intros i chunk Hi. apply lookup_app_Some in Hi as [Hi|[Hge Hi]].
    + pose proof (Forall_lookup_1 _ _ _ _ Hlens Hi) as ->.
      by apply even_chunks_lookup in Hi.
    + rewrite length_even_chunks in Hge, Hi.
      apply list_lookup_singleton_Some in Hi as [Hi <-].
      replace i with k by lia. by rewrite take_ge.
  - eapply Forall_impl; [exact Hlens|]. intros chunk ->. lia.
  - rewrite length_drop. nia.
Qed.

Lemma plan_chunks_partition_witness :
  N.of_nat (length Fixture.paths_ab) < UINTMAX_MOD
  ∧ 2 ≤ 3 < UINT_MOD
  ∧ plan_chunks Fixture.paths_ab 3
    = Some [["R/a"]; ["R/a/f1"; "R/a/f2"; "R/a/f3"; "R/b"]]
  ∧ ∃ chunks last, plan_chunks Fixture.paths_ab 3 = Some (chunks ++ [last])
      ∧ concat (chunks ++ [last]) = Fixture.paths_ab.
Proof.
  assert (N.of_nat (length Fixture.paths_ab) < UINTMAX_MOD) as Hlen by reflexivity.
  assert (2 ≤ 3 < UINT_MOD) as Hh by (split; [discriminate|reflexivity]).
  split_and!; [exact Hlen|discriminate|reflexivity|reflexivity|].
  destruct (plan_chunks_partition Fixture.paths_ab 3 Hlen Hh)
    as (_ & chunks & last & Hplan & _ & Hconcat & _).
  exists chunks, last. split; [exact Hplan|exact Hconcat].
Defined.

(** C4, as stated, fails: with three hardware threads (two tasks) and a
    single path, more tasks than paths, the chunk size is 0, not at
    least 1. *)
Lemma plan_chunks_defined_counterexample :
  num_futures 3 = 2
  ∧ max_chunk_sz ["R/a"] 3 = Some 0
  ∧ plan_chunks ["R/a"] 3 = Some [[]; ["R/a"]]
  ∧ ¬ (∃ chunk_sz, max_chunk_sz ["R/a"] 3 = Some chunk_sz ∧ 1 ≤ chunk_sz).
Proof.
  split_and!; [reflexivity..|].
  intros (chunk_sz & [= <-] & Hle). by apply Hle.
Qed.

(** C4, amended.  With at least one hardware thread, line 92 does not
    divide by zero; the chunk size is [N / hardw_threads], which is 0 when
    there are more hardware threads than paths; the loop hands out
    [hardw_threads - 1] chunks without leaving the path list, so that the
    run does not end in the undefined behaviour of the partition step
    (whether it then completes depends on the tasks); with a single
    hardware thread no chunk is handed out; with more hardware threads
    than paths every chunk but the last is empty and the last is the
    whole path list. *)
Theorem plan_chunks_defined (paths : list path) (hardw_threads : N) :
  N.of_nat (length paths) < UINTMAX_MOD →
  1 ≤ hardw_threads < UINT_MOD →
  max_chunk_sz paths hardw_threads = Some (N.of_nat (length paths) / hardw_threads)
  ∧ num_futures hardw_threads = hardw_threads - 1
  ∧ (∀ env, hardware_concurrency env = hardw_threads →
       main_body env paths ≠ Undefined_behaviour)
  ∧ ∃ chunks, plan_chunks paths hardw_threads = Some chunks
      ∧ N.of_nat (length chunks) = hardw_threads - 1
      ∧ (hardw_threads = 1 → chunks = [])
      ∧ (2 ≤ hardw_threads → concat chunks = paths)
      ∧ (2 ≤ hardw_threads → N.of_nat (length paths) < hardw_threads →
           N.of_nat (length paths) / hardw_threads = 0
           ∧ chunks = replicate (N.to_nat (hardw_threads - 2)) [] ++ [paths]).
Proof.
  intros Hlen Hh.
  assert (∃ chunks, plan_chunks paths hardw_threads = Some chunks
      ∧ N.of_nat (length chunks) = hardw_threads - 1
      ∧ (hardw_threads = 1 → chunks = [])
      ∧ (2 ≤ hardw_threads → concat chunks = paths)
      ∧ (2 ≤ hardw_threads → N.of_nat (length paths) < hardw_threads →
           N.of_nat (length paths) / hardw_threads = 0
           ∧ chunks = replicate (N.to_nat (hardw_threads - 2)) [] ++ [paths]))
    as (chunks & Hplan & Hrest).
  { destruct (decide (hardw_threads = 1)) as [->|Hne].
    - exists []. split; [apply plan_chunks_one|]. split_and!; [done..|lia|lia].
    - eexists. split; [apply plan_chunks_spec; [done|lia]|]. split_and!.
      + rewrite length_app, length_even_chunks. simpl. lia.
      + done.
      + intros _. rewrite concat_app, concat_even_chunks. simpl.
        by rewrite app_nil_r, take_drop.
      + intros _ Hmore. rewrite N.div_small by done. split; [done|].
        change (N.to_nat 0) with 0%nat. by rewrite even_chunks_zero, Nat.mul_0_r. }
  split_and!.
  - unfold max_chunk_sz. by rewrite decide_False by lia.
  - apply num_futures_pos. lia.
  - intros env Henv. unfold main_body. rewrite Henv, Hplan.
    by destruct (merge_futures _ _ _) as [[g c]|what].
  - by exists chunks.
Qed.

Lemma plan_chunks_defined_witness :
  N.of_nat (length ["R/a"]) < UINTMAX_MOD
  ∧ 1 ≤ 3 < UINT_MOD
  ∧ max_chunk_sz ["R/a"] 3 = Some 0
  ∧ ∃ chunks, plan_chunks ["R/a"] 3 = Some chunks ∧ concat chunks = ["R/a"].
Proof.
  assert (N.of_nat (length ["R/a"]) < UINTMAX_MOD) as Hlen by reflexivity.
  assert (1 ≤ 3 < UINT_MOD) as Hh by (split; [discriminate|reflexivity]).
  split_and!; [exact Hlen|discriminate|reflexivity|reflexivity|].
  destruct (plan_chunks_defined ["R/a"] 3 Hlen Hh)
    as (_ & _ & _ & chunks & Hplan & _ & _ & Hconcat & _).
  exists chunks. split; [exact Hplan|]. apply Hconcat. discriminate.
Defined.

(** * Further properties of the code *)

(** ** [generate_map] *)

Section generate_more.
Variable fs : FileSystem.
Implicit Types (chunk : list path) (res : map_type) (d : dir_listing).

Lemma scan_info_in_range i last (l : list directory_entry) :
  in_range i → in_range (scan_info i last l).1.
Proof.
  revert i. induction l as [|e l IH]; intros i Hi; simpl; [done|].
  destruct (entry_is_regular_file e) as [[|]|what]; simpl; [|by apply IH|done].
  destruct (entry_file_size e) as [sz|what]; simpl.
  - apply IH. split; apply wrap_uintmax_lt.
  - split; [apply wrap_uintmax_lt|apply Hi].
Qed.

Lemma dir_stats_in_range d : in_range (dir_stats d).
Proof. apply scan_info_in_range. by split. Qed.

(** The file count of a record is the number of files counted so far;
    until a file is counted the byte total does not move. *)
Lemma scan_info_counted i last (l : list directory_entry) :
  ∃ k : nat, (k ≤ length l)%nat
    ∧ num_files (scan_info i last l).1 = (if decide (k = 0%nat) then num_files i
                                          else wrap_uintmax (num_files i + N.of_nat k))
    ∧ (k = 0%nat → total_size (scan_info i last l).1 = total_size i).
Proof.
  revert i. induction l as [|e l IH]; intros i; simpl.
  { exists 0%nat. by rewrite decide_True. }
  destruct (entry_is_regular_file e) as [[|]|what]; simpl.
  - destruct (entry_file_size e) as [sz|what]; simpl.
    + destruct (IH (add_total_size sz (add_num_files 1 i))) as (k & Hk & Hn & _).
      exists (S k). split; [lia|]. rewrite decide_False by done. split; [|done].
      rewrite Hn. simpl. case_decide as Hz; [subst k; f_equal; lia|].
      rewrite wrap_uintmax_add_l. f_equal. lia.
    + exists 1%nat. split; [lia|]. by rewrite decide_False.
  - destruct (IH i) as (k & Hk & Hn & Hs). exists k. split; [lia|done].
  - exists 0%nat. split; [lia|]. by rewrite decide_True.
Qed.

Lemma dir_stats_no_file_no_byte d :
  N.of_nat (length (yielded d)) < UINTMAX_MOD →
  num_files (dir_stats d) = 0 → total_size (dir_stats d) = 0.
Proof.
  intros Hshort. unfold dir_stats.
  destruct (scan_info_counted zero_info (iterator_throws d) (yielded d))
    as (k & Hk & Hn & Hs).
  rewrite Hn. case_decide as Hz; [intros _; by apply Hs|].
  simpl. rewrite wrap_uintmax_small; lia.
Qed.

(** What is in the map after the loop comes from one of the directories
    of the chunk. *)
Lemma scan_chunk_lookup_Some chunk name i :
  scan_chunk fs chunk ∅ !! name = Some i →
  ∃ p, p ∈ chunk ∧ is_directory fs p = Ok true ∧ filename p = name
       ∧ i = dir_stats (directory_iterator fs p).
Proof.
  assert (∀ res, scan_chunk fs chunk res !! name = Some i →
    res !! name = Some i
    ∨ ∃ p, p ∈ chunk ∧ is_directory fs p = Ok true ∧ filename p = name
           ∧ i = dir_stats (directory_iterator fs p)) as Hgen.
  { induction chunk as [|q chunk IH]; intros res Hres; simpl in Hres; [by left|].
    destruct (is_dir fs q) eqn:Hq.
    - destruct (IH _ Hres) as [Hins|(p & Hp & ?)].
      + apply lookup_insert_Some in Hins as [[<- <-]|[_ ?]]; [|by left].
        right. exists q. split_and!; [by left|by apply is_dir_true|done..].
      + right. exists p. split; [by right|done].
    - destruct (IH _ Hres) as [?|(p & Hp & ?)]; [by left|].
      right. exists p. split; [by right|done]. }
  intros Hres. destruct (Hgen ∅ Hres) as [Hempty|?]; [|done].
  by rewrite lookup_empty in Hempty.
Qed.

Lemma elem_of_caught_in chunk what :
  Cerr_exception what ∈ caught_in fs chunk ↔
  ∃ p, p ∈ chunk ∧ is_directory fs p = Ok true
       ∧ dir_caught (directory_iterator fs p) = Some what.
Proof.
  unfold caught_in. rewrite list_elem_of_bind. split.
  - intros (p & Hout & Hp). exists p. split; [done|].
    destruct (is_dir fs p) eqn:Hdir; [|by apply elem_of_nil in Hout].
    split; [by apply is_dir_true|].
    destruct (dir_caught _) as [w|]; simpl in Hout; [|by apply elem_of_nil in Hout].
    apply list_elem_of_singleton in Hout. by injection Hout as ->.
  - intros (p & Hp & Hdir & Hcaught). exists p. split; [|done].
    apply is_dir_true in Hdir as ->. rewrite Hcaught. by left.
Qed.

Lemma elem_of_debug_lines res dir files bytes :
  Cout_debug dir files bytes ∈ debug_lines res ↔
  res !! dir = Some {| num_files := files; total_size := bytes |}.
Proof.
  unfold debug_lines. rewrite list_elem_of_fmap. split.
  - intros ([k [n s]] & [= -> -> ->] & Hin). by apply elem_of_entries.
  - intros Hin. exists (dir, {| num_files := files; total_size := bytes |}).
    split; [done|]. by apply elem_of_entries.
Qed.

Lemma debug_lines_no_cerr res what : Cerr_exception what ∉ debug_lines res.
Proof.
  unfold debug_lines. rewrite list_elem_of_fmap. by intros (e & [=] & _).
Qed.

Lemma caught_in_no_debug chunk dir files bytes :
  Cout_debug dir files bytes ∉ caught_in fs chunk.
Proof.
  unfold caught_in. rewrite list_elem_of_bind. intros (p & Hout & _).
  destruct (is_dir fs p); [|by apply elem_of_nil in Hout].
  destruct (dir_caught _); simpl in Hout; [|by apply elem_of_nil in Hout].
  by apply list_elem_of_singleton in Hout.
Qed.
End generate_more.

(** X1.  The only exception that leaves [generate_map] is one thrown by
    the [fs::is_directory] query of line 38, which is outside the [try]
    block: the function throws [what] exactly when the status query of
    some path of the chunk throws [what] and the status queries of all the
    paths before it returned. *)
Theorem generate_map_escapes_only_status (fs : FileSystem) (chunk : list path)
    (what : string) :
  generate_map fs chunk = Throw what ↔
  ∃ before p after, chunk = before ++ p :: after
    ∧ status_ok fs before ∧ is_directory fs p = Throw what.
Proof. apply generate_map_throw. Qed.

(** X2.  A chunk without a directory gives the empty map and writes
    nothing: files and other non-directories never create an entry. *)
Theorem generate_map_no_directory (fs : FileSystem) (chunk : list path) :
  (∀ p, p ∈ chunk → is_directory fs p = Ok false) →
  generate_map fs chunk = Ok (∅, []).
Proof.
  intros Hfiles.
  assert (∀ res out, generate_loop fs chunk res out = Ok (res, out)) as Hloop.
  { induction chunk as [|p chunk IH]; intros res out; simpl; [done|].
    rewrite (Hfiles p) by by left. apply IH. intros q Hq. apply Hfiles. by right. }
  unfold generate_map. rewrite Hloop. unfold debug_lines, entries.
  by rewrite map_to_list_empty.
Qed.

Lemma generate_map_no_directory_witness :
  (∀ p, p ∈ ["R/a/f1"; "R/a/f2"] → is_directory Fixture.tree_ab p = Ok false)
  ∧ generate_map Fixture.tree_ab ["R/a/f1"; "R/a/f2"] = Ok (∅, []).
Proof.
  assert (∀ p, p ∈ ["R/a/f1"; "R/a/f2"] → is_directory Fixture.tree_ab p = Ok false)
    as Hfiles.
  { intros p Hp. check_members Hp. }
  split; [exact Hfiles|]. exact (generate_map_no_directory _ _ Hfiles).
Defined.

Lemma caught_in_directories (fs : FileSystem) (chunk : list path) :
  caught_in fs chunk
  = omap (λ p, Cerr_exception <$> dir_caught (directory_iterator fs p))
         (directories fs chunk).
Proof.
  induction chunk as [|p chunk IH]; [done|].
  rewrite caught_in_cons, IH. unfold directories. rewrite filter_cons.
  destruct (is_dir fs p) eqn:Hp.
  - rewrite decide_True by done. simpl.
    by destruct (dir_caught (directory_iterator fs p)).
  - by rewrite decide_False by done.
Qed.

Lemma NoDup_debug_lines (res : map_type) : NoDup (debug_lines res).
Proof.
  unfold debug_lines. apply NoDup_fmap_2_strong; [|apply NoDup_entries].
  intros [k1 [n1 s1]] [k2 [n2 s2]] _ _ [= -> -> ->]. done.
Qed.

Lemma length_debug_lines (res : map_type) : length (debug_lines res) = size res.
Proof. unfold debug_lines. by rewrite length_fmap, length_entries. Qed.

(** X3.  What [generate_map] writes: first, in chunk order, one
    [Exception caught] line for each directory of the chunk whose scan
    stopped on an exception, and nothing else; then exactly one [Debug]
    line for each entry of the map it returns, showing the two fields of
    the entry, no line twice and as many lines as entries.  When every
    directory of the chunk lists cleanly nothing goes to [std::cerr]. *)
Theorem generate_map_output_lines (fs : FileSystem) (chunk : list path) :
  status_ok fs chunk →
  ∃ res cerr debug, generate_map fs chunk = Ok (res, cerr ++ debug)
    ∧ cerr = omap (λ p, Cerr_exception <$> dir_caught (directory_iterator fs p))
                  (directories fs chunk)
    ∧ NoDup debug
    ∧ length debug = size res
    ∧ (∀ line, line ∈ debug → ∃ dir files bytes, line = Cout_debug dir files bytes)
    ∧ (∀ dir files bytes,
         Cout_debug dir files bytes ∈ debug ↔
         res !! dir = Some {| num_files := files; total_size := bytes |})
    ∧ (∀ what,
         Cerr_exception what ∈ cerr ++ debug ↔
         ∃ p, p ∈ chunk ∧ is_directory fs p = Ok true
              ∧ dir_caught (directory_iterator fs p) = Some what)
    ∧ ((∀ p, p ∈ chunk → is_directory fs p = Ok true →
          clean (directory_iterator fs p)) →
       cerr = []).
Proof.
  intros Hok.
  exists (scan_chunk fs chunk ∅), (caught_in fs chunk),
    (debug_lines (scan_chunk fs chunk ∅)).
  split; [by apply generate_map_ok|]. split_and!.
  - apply caught_in_directories.
  - apply NoDup_debug_lines.
  - apply length_debug_lines.
  - intros line. unfold debug_lines. rewrite list_elem_of_fmap.
    intros (e & -> & _). by eexists _, _, _.
  - intros dir files bytes. apply elem_of_debug_lines.
  - intros what. rewrite elem_of_app, elem_of_caught_in. split; [|by left].
    intros [?|Hdebug]; [done|]. by apply debug_lines_no_cerr in Hdebug.
  - intros Hclean. rewrite caught_in_directories.
    induction chunk as [|p chunk IH]; [done|].
    apply Forall_cons in Hok as [_ Hok].
    unfold directories. rewrite filter_cons. fold (directories fs chunk).
    assert (∀ q, q ∈ chunk → is_directory fs q = Ok true →
              clean (directory_iterator fs q)) as Hrest.
    { intros q Hq. apply Hclean. by right. }
    case_decide as Hp; [|by apply IH]. simpl.
    apply is_dir_true in Hp.
    destruct (dir_stats_clean _ (Hclean p (list_elem_of_here _ _) Hp)) as [_ ->].
    simpl. by apply IH.
Qed.

Lemma generate_map_output_lines_witness :
  status_ok Fixture.tree_faulty Fixture.chunk_faulty
  ∧ ∃ res cerr debug,
      generate_map Fixture.tree_faulty Fixture.chunk_faulty = Ok (res, cerr ++ debug)
      ∧ cerr = [Cerr_exception "Permission denied";
                Cerr_exception "No such file or directory";
                Cerr_exception "Permission denied"]
      ∧ length debug = size res.
Proof.
  assert (status_ok Fixture.tree_faulty Fixture.chunk_faulty) as Hok.
  { apply status_ok_of_listings. }
  split; [exact Hok|].
  destruct (generate_map_output_lines _ _ Hok)
    as (res & cerr & debug & Hgen & Hcerr & _ & Hlen & _).
  exists res, cerr, debug. split; [exact Hgen|]. split; [|exact Hlen].
  rewrite Hcerr. reflexivity.
Defined.

(** X4.  Every record of a partial map fits in 64 bits, and, as long as
    no directory yields 2^64 entries or more, a record that counts no
    file holds no byte: the byte total only moves after a file has been
    counted. *)
Theorem generate_map_zero_files_zero_bytes (fs : FileSystem) (chunk : list path) :
  status_ok fs chunk →
  (∀ p, p ∈ chunk → N.of_nat (length (yielded (directory_iterator fs p))) < UINTMAX_MOD) →
  ∃ res out, generate_map fs chunk = Ok (res, out)
    ∧ ∀ dir info, res !! dir = Some info →
        in_range info ∧ (num_files info = 0 → total_size info = 0).
Proof.
  intros Hok Hshort. eexists _, _. split; [by apply generate_map_ok|].
  intros dir info (p & Hp & _ & _ & ->)%scan_chunk_lookup_Some.
  split; [apply dir_stats_in_range|]. by apply dir_stats_no_file_no_byte, Hshort.
Qed.

Lemma generate_map_zero_files_zero_bytes_witness :
  status_ok Fixture.tree_faulty Fixture.chunk_faulty
  ∧ (∀ p, p ∈ Fixture.chunk_faulty →
       N.of_nat (length (yielded (directory_iterator Fixture.tree_faulty p)))
       < UINTMAX_MOD)
  ∧ ∃ res out, generate_map Fixture.tree_faulty Fixture.chunk_faulty = Ok (res, out)
      ∧ ∀ dir info, res !! dir = Some info → num_files info = 0 → total_size info = 0.
Proof.
  assert (status_ok Fixture.tree_faulty Fixture.chunk_faulty) as Hok.
  { apply status_ok_of_listings. }
  assert (∀ p, p ∈ Fixture.chunk_faulty →
    N.of_nat (length (yielded (directory_iterator Fixture.tree_faulty p)))
    < UINTMAX_MOD) as Hshort.
  { intros p Hp. check_members Hp. }
  split_and!; [exact Hok|exact Hshort|].
  destruct (generate_map_zero_files_zero_bytes _ _ Hok Hshort)
    as (res & out & Hgen & Hinv).
  exists res, out. split; [exact Hgen|]. intros dir info Hin.
  exact (proj2 (Hinv dir info Hin)).
Defined.

(** ** The merge loop *)

Section merge_more.
Implicit Types (P Q g : map_type) (c : N) (partials : list map_type)
  (futures : list (Result map_type)).

Lemma entries_empty : entries ∅ = [].
Proof. unfold entries. by rewrite map_to_list_empty. Qed.

Lemma process_map_empty g c : process_map ∅ g c = (g, wrap_uintmax c).
Proof.
  unfold process_map. rewrite entries_empty, map_size_empty. simpl.
  by rewrite N.add_0_r.
Qed.

Lemma subscript_process_map P g c dir :
  subscript (process_map P g c).1 dir
  = match P !! dir with
    | Some i => combine (subscript g dir) i
    | None => subscript g dir
    end.
Proof.
  unfold subscript at 1. rewrite process_map_lookup.
  by destruct (P !! dir).
Qed.

Lemma combine_comm_r i j k : combine (combine i j) k = combine (combine i k) j.
Proof.
  unfold combine. simpl. rewrite !wrap_uintmax_add_l. f_equal; f_equal; lia.
Qed.

(** Two merges commute. *)
Lemma process_map_comm P Q g c :
  process_map Q (process_map P g c).1 (process_map P g c).2
  = process_map P (process_map Q g c).1 (process_map Q g c).2.
Proof.
  apply injective_projections.
  - apply map_eq. intros dir.
    rewrite !process_map_lookup, !subscript_process_map.
    destruct (P !! dir) as [i|], (Q !! dir) as [j|]; try done.
    by rewrite combine_comm_r.
  - rewrite !process_map_counter, !wrap_uintmax_add_l. f_equal. lia.
Qed.

Lemma merge_all_Permutation partials partials' g c :
  partials ≡ₚ partials' → merge_all partials g c = merge_all partials' g c.
Proof.
  intros Hperm. revert g c.
  induction Hperm as [|P l l' _ IH|P Q l|l l' l'' _ IH1 _ IH2]; intros g c.
  - done.
  - rewrite !merge_all_cons. apply IH.
  - rewrite !merge_all_cons. by rewrite process_map_comm.
  - by rewrite IH1.
Qed.

Lemma merge_futures_skip_empty futures futures' g c :
  c < UINTMAX_MOD →
  merge_futures (futures ++ Ok ∅ :: futures') g c
  = merge_futures (futures ++ futures') g c.
Proof.
  revert g c.
  induction futures as [|[P|what] futures IH]; intros g c Hc; cbn [app merge_futures].
  - by rewrite process_map_empty, wrap_uintmax_small.
  - destruct (process_map P g c) as [g1 c1] eqn:HP. apply IH.
    change c1 with (g1, c1).2. rewrite <-HP, process_map_counter.
    apply wrap_uintmax_lt.
  - done.
Qed.

Lemma key_le_trans : Transitive key_le.
Proof. intros x y z. unfold key_le. apply (transitivity (R := String.le)). Qed.

Lemma le_ne_ltb (s1 s2 : string) : String.le s1 s2 → s1 ≠ s2 → String.ltb s1 s2 = true.
Proof.
  unfold String.le, String.leb, String.ltb. intros Hle Hne.
  destruct (String.compare s1 s2) eqn:Hcmp; [|done..].
  by apply String.compare_eq_iff in Hcmp.
Qed.

Lemma StronglySorted_lookup {A} (R : relation A) (l : list A) i j x y :
  StronglySorted R l → (i < j)%nat → l !! i = Some x → l !! j = Some y → R x y.
Proof.
  intros Hsorted. revert i j.
  induction Hsorted as [|a l _ IH Hall]; intros i j Hij Hi Hj; [done|].
  destruct j as [|j]; [lia|]. simpl in Hj. destruct i as [|i]; simpl in Hi.
  - injection Hi as ->. rewrite Forall_forall in Hall.
    by apply Hall, list_elem_of_lookup_2 with j.
  - apply (IH i j); [lia|done..].
Qed.

Lemma StronglySorted_filter {A} (R : relation A) (P : A → Prop)
    `{!∀ x, Decision (P x)} (l : list A) :
  StronglySorted R l → StronglySorted R (filter P l).
Proof.
  induction 1 as [|a l _ IH Hall]; [constructor|].
  rewrite filter_cons. case_decide; [|done]. constructor; [done|].
  rewrite Forall_forall in Hall. apply Forall_forall.
  intros y [_ Hy]%list_elem_of_filter. by apply Hall.
Qed.

(** The traversal of a map goes through strictly increasing names. *)
Lemma entries_strictly_sorted P : StronglySorted name_lt (entries P).
Proof.
  pose proof (@StronglySorted_merge_sort _ key_le _ key_le_trans key_le_total
                (map_to_list P)) as Hsorted.
  fold (entries P) in Hsorted. pose proof (NoDup_fst_entries P) as Hnodup.
  induction Hsorted as [|a l _ IH Hall]; [constructor|].
  rewrite fmap_cons in Hnodup. apply NoDup_cons in Hnodup as [Hnotin Hnodup].
  constructor; [by apply IH|].
  rewrite Forall_forall in Hall. apply Forall_forall. intros y Hy.
  apply le_ne_ltb; [by apply Hall|].
  intros Heq. apply Hnotin. rewrite Heq. by apply list_elem_of_fmap_2.
Qed.
End merge_more.

(** X5.  The order in which the futures are merged does not matter: any
    rearrangement of the partial maps leaves the global map and the
    progress counter as they are. *)
Theorem merge_order_irrelevant (partials partials' : list map_type)
    (processed_data : map_type) (directory_counter : N) :
  partials ≡ₚ partials' →
  merge_futures (Ok <$> partials) processed_data directory_counter
  = merge_futures (Ok <$> partials') processed_data directory_counter.
Proof.
  intros Hperm. rewrite !merge_futures_Ok. f_equal.
  by apply merge_all_Permutation.
Qed.

Lemma merge_order_irrelevant_witness :
  let P := ({["x" := {| num_files := 1; total_size := 4 |}]} : map_type) in
  let Q := ({["x" := {| num_files := 1; total_size := 6 |}]} : map_type) in
  [P; Q] ≡ₚ [Q; P]
  ∧ merge_futures (Ok <$> [P; Q]) ∅ 0 = merge_futures (Ok <$> [Q; P]) ∅ 0.
Proof.
  intros P Q.
  assert ([P; Q] ≡ₚ [Q; P]) as Hperm by apply perm_swap.
  split; [exact Hperm|]. exact (merge_order_irrelevant _ _ ∅ 0 Hperm).
Defined.

(** X6.  A launch that fails writes the exception to [std::cerr] and
    leaves a future holding the empty map; dropping that future from the
    list of futures changes nothing in what the merge loop returns,
    neither the global map, nor the progress counter, nor the exception
    it may stop on. *)
Theorem failed_launch_contributes_nothing (env : Environment) (i : nat)
    (chunk : list path) (what : string) (futures futures' : list (Result map_type))
    (processed_data : map_type) (directory_counter : N) :
  async_throws env i = Some what →
  directory_counter < UINTMAX_MOD →
  launch env i chunk = (Ok ∅, [Cerr_exception what])
  ∧ merge_futures (futures ++ (launch env i chunk).1 :: futures')
                  processed_data directory_counter
    = merge_futures (futures ++ futures') processed_data directory_counter.
Proof.
  intros Hfail Hc. unfold launch. rewrite Hfail. split; [done|].
  by apply merge_futures_skip_empty.
Qed.

Lemma failed_launch_contributes_nothing_witness :
  async_throws Fixture.env_faulty 1 = Some "Resource temporarily unavailable"
  ∧ 0 < UINTMAX_MOD
  ∧ launch Fixture.env_faulty 1 ["R/b"]
    = (Ok ∅, [Cerr_exception "Resource temporarily unavailable"]).
Proof.
  split_and!; [reflexivity..|].
  exact (proj1 (failed_launch_contributes_nothing Fixture.env_faulty 1 ["R/b"]
                  "Resource temporarily unavailable" [] [] ∅ 0 eq_refl eq_refl)).
Defined.

(** ** The report *)

(** X7.  The directory lines of the report come in strictly increasing
    order of directory name (names compared byte by byte), so no name is
    printed twice. *)
Theorem report_lines_ascending (processed_data : map_type) (i j : nat)
    (dir1 dir2 : string) (files1 bytes1 files2 bytes2 : N) :
  (i < j)%nat →
  directory_lines processed_data !! i = Some (Println_directory dir1 files1 bytes1) →
  directory_lines processed_data !! j = Some (Println_directory dir2 files2 bytes2) →
  String.ltb dir1 dir2 = true.
Proof.
  unfold directory_lines. rewrite !list_lookup_fmap. intros Hij Hi Hj.
  destruct (filter _ _ !! i) as [[k1 v1]|] eqn:Hi'; [|done].
  destruct (filter _ _ !! j) as [[k2 v2]|] eqn:Hj'; [|done].
  simpl in Hi, Hj. injection Hi as -> _ _. injection Hj as -> _ _.
  eapply (StronglySorted_lookup name_lt _ i j (dir1, v1) (dir2, v2));
    [|exact Hij|exact Hi'|exact Hj'].
  apply StronglySorted_filter, entries_strictly_sorted.
Qed.

Lemma report_lines_ascending_witness :
  let m := ({["b" := {| num_files := 2; total_size := 9 |}]}
            ∪ {["a" := {| num_files := 1; total_size := 4 |}]} : map_type) in
  (0 < 1)%nat
  ∧ directory_lines m !! 0%nat = Some (Println_directory "a" 1 4)
  ∧ directory_lines m !! 1%nat = Some (Println_directory "b" 2 9)
  ∧ String.ltb "a" "b" = true.
Proof.
  intros m.
  assert (directory_lines m !! 0%nat = Some (Println_directory "a" 1 4)) as H0
    by reflexivity.
  assert (directory_lines m !! 1%nat = Some (Println_directory "b" 2 9)) as H1
    by reflexivity.
  split_and!; [lia|exact H0|exact H1|].
  exact (report_lines_ascending m 0 1 "a" "b" 1 4 2 9 (le_n 1) H0 H1).
Defined.

(** X8.  Both totals of the summary line are the sums of the field over
    all the entries of the global map, reduced to a 32-bit two's
    complement [int]: they always lie between -2^31 and 2^31 - 1 and
    differ from the true sums by a multiple of 2^32. *)
Theorem summary_totals_are_truncated_sums (processed_data : map_type)
    (directory_counter : N) (ms : Z) :
  summary_lines processed_data directory_counter ms
  = [Println_blank;
     Println_total (to_int (sum_field num_files processed_data))
                   (to_int (sum_field total_size processed_data))
                   directory_counter ms]
  ∧ (- 2 ^ 31 ≤ total_subdirectories processed_data < 2 ^ 31)%Z
  ∧ (- 2 ^ 31 ≤ total_space processed_data < 2 ^ 31)%Z
  ∧ ((total_subdirectories processed_data - sum_field num_files processed_data)
       mod 2 ^ 32 = 0)%Z
  ∧ ((total_space processed_data - sum_field total_size processed_data)
       mod 2 ^ 32 = 0)%Z.
Proof.
  assert (∀ z, (- 2 ^ 31 ≤ to_int z < 2 ^ 31)%Z) as Hrange.
  { intros z. unfold to_int.
    pose proof (Z.mod_pos_bound (z + 2 ^ 31) (2 ^ 32)). lia. }
  assert (∀ z, ((to_int z - z) mod 2 ^ 32 = 0)%Z) as Hcongr.
  { intros z. unfold to_int. rewrite (Z.mod_eq (z + 2 ^ 31) (2 ^ 32)) by lia.
    replace (z + 2 ^ 31 - 2 ^ 32 * ((z + 2 ^ 31) / 2 ^ 32) - 2 ^ 31 - z)%Z
      with (0 + (- ((z + 2 ^ 31) / 2 ^ 32)) * 2 ^ 32)%Z by lia.
    by rewrite Z.mod_add by lia. }
  unfold summary_lines, total_subdirectories, total_space.
  rewrite !total_is_truncated_sum.
  split; [done|]. split; [apply Hrange|]. split; [apply Hrange|].
  split; apply Hcongr.
Qed.

(** X9.  When the files of the global map number fewer than 2^31 and
    their sizes add up to less than 2^31 bytes, the summary line shows
    the exact number of files and the exact number of bytes. *)
Theorem summary_totals_exact_when_small (processed_data : map_type)
    (directory_counter : N) (ms : Z) :
  (sum_field num_files processed_data < 2 ^ 31)%Z →
  (sum_field total_size processed_data < 2 ^ 31)%Z →
  summary_lines processed_data directory_counter ms
  = [Println_blank;
     Println_total (sum_field num_files processed_data)
                   (sum_field total_size processed_data)
                   directory_counter ms].
Proof.
  intros Hfiles Hbytes. unfold summary_lines, total_subdirectories, total_space.
  by rewrite !total_exact_when_small.
Qed.

Lemma summary_totals_exact_when_small_witness :
  let m := ({["b" := {| num_files := 2; total_size := 9 |}]}
            ∪ {["a" := {| num_files := 1; total_size := 4 |}]} : map_type) in
  (sum_field num_files m < 2 ^ 31)%Z
  ∧ (sum_field total_size m < 2 ^ 31)%Z
  ∧ summary_lines m 2 7 = [Println_blank; Println_total 3 13 2 7].
Proof.
  intros m.
  assert (sum_field num_files m < 2 ^ 31)%Z as Hfiles by reflexivity.
  assert (sum_field total_size m < 2 ^ 31)%Z as Hbytes by reflexivity.
  split_and!; [exact Hfiles|exact Hbytes|].
  exact (summary_totals_exact_when_small m 2 7 Hfiles Hbytes).
Defined.

(** ** The whole run *)

Section run.
Implicit Types (env : Environment) (fs : FileSystem) (paths chunk : list path)
  (chunks : list (list path)) (futures : list (Result map_type)).

Lemma elem_of_concat chunks (p : path) :
  p ∈ concat chunks ↔ ∃ chunk, chunk ∈ chunks ∧ p ∈ chunk.
Proof.
  induction chunks as [|c chunks IH]; simpl.
  - split; [by intros ?%elem_of_nil|]. by intros (chunk & ?%elem_of_nil & _).
  - rewrite elem_of_app, IH. split.
    + intros [Hp|(chunk & Hc & Hp)].
      * exists c. split; [by left|done].
      * exists chunk. split; [by right|done].
    + intros (chunk & [->|Hc]%elem_of_cons & Hp); [by left|]. right. eauto.
Qed.

Lemma status_ok_concat fs chunks :
  status_ok fs (concat chunks) ↔ Forall (status_ok fs) chunks.
Proof.
  induction chunks as [|c chunks IH]; simpl.
  - split; constructor.
  - rewrite status_ok_app, Forall_cons, IH. done.
Qed.

(** The chunks of a run with at least two hardware threads cover the
    path list. *)
Lemma plan_chunks_concat paths (hardw_threads : N) :
  N.of_nat (length paths) < UINTMAX_MOD →
  2 ≤ hardw_threads < UINT_MOD →
  ∃ chunks, plan_chunks paths hardw_threads = Some chunks ∧ concat chunks = paths.
Proof.
  intros Hlen Hh. eexists. split; [by apply plan_chunks_spec|].
  rewrite concat_app, concat_even_chunks. simpl. by rewrite app_nil_r, take_drop.
Qed.

Lemma plan_chunks_is_Some paths (hardw_threads : N) :
  N.of_nat (length paths) < UINTMAX_MOD →
  1 ≤ hardw_threads < UINT_MOD →
  is_Some (plan_chunks paths hardw_threads).
Proof.
  intros Hlen Hh. destruct (decide (hardw_threads = 1)) as [->|Hne].
  - rewrite plan_chunks_one. by eexists.
  - rewrite plan_chunks_spec by (done || lia). by eexists.
Qed.

Lemma report_empty (ms : Z) :
  report ∅ 0 ms = [Println_header; Println_blank; Println_total 0 0 0 ms].
Proof.
  unfold report, directory_lines, summary_lines, total_subdirectories, total_space.
  by rewrite entries_empty.
Qed.


Lemma launch_Throw env i chunk what :
  (launch env i chunk).1 = Throw what →
  generate_map (env_fs env) chunk = Throw what.
Proof.
  unfold launch. destruct (async_throws env i); [done|].
  destruct (generate_map (env_fs env) chunk) as [[res out]|w]; simpl; [done|].
  by intros [= ->].
Qed.


(** With every launch and every status query succeeding, the futures hold
    the scans of the chunks. *)
Lemma launched_partials env chunks :
  launches_ok env →
  Forall (status_ok (env_fs env)) chunks →
  (imap (launch env) chunks).*1 = Ok <$> partials_of (env_fs env) chunks.
Proof.
  intros Hlaunch Hok. apply list_eq. intros i. unfold partials_of.
  rewrite !list_lookup_fmap, list_lookup_imap.
  destruct (chunks !! i) as [chunk|] eqn:Hi; [|done]. simpl. f_equal.
  unfold launch. rewrite Hlaunch, generate_map_ok; [done|].
  by eapply Forall_lookup_1.
Qed.


(** The merge loop stops on the exception of a future of the list, and
    does stop when some future holds an exception. *)
Lemma merge_futures_Throw_elem futures (g : map_type) (c : N) what :
  merge_futures futures g c = Throw what → Throw what ∈ futures.
Proof.
  revert g c. induction futures as [|[P|w] futures IH]; intros g c; simpl; [done|..].
  - destruct (process_map P g c) as [g1 c1]. intros ?%IH. by right.
  - intros [= ->]. by left.
Qed.

Lemma merge_futures_Throw_exists futures (g : map_type) (c : N) w :
  Throw w ∈ futures → ∃ what, merge_futures futures g c = Throw what.
Proof.
  revert g c. induction futures as [|[P|w'] futures IH]; intros g c Hin; simpl.
  - by apply elem_of_nil in Hin.
  - destruct (process_map P g c) as [g1 c1]. apply IH.
    by apply elem_of_cons in Hin as [?|?].
  - by eexists.
Qed.

Lemma generate_loop_throws_if fs chunk p w :
  p ∈ chunk → is_directory fs p = Throw w →
  ∀ res out, ∃ what, generate_loop fs chunk res out = Throw what.
Proof.
  intros Hin Hp. induction chunk as [|q chunk IH]; intros res out; simpl.
  { by apply elem_of_nil in Hin. }
  destruct (is_directory fs q) as [b|what] eqn:Hq; [|by eexists].
  apply elem_of_cons in Hin as [->|Hin]; [congruence|].
  destruct b; [|by apply IH]. destruct (scan_entries _ _ _ _). by apply IH.
Qed.

Lemma generate_map_throws_if fs chunk p w :
  p ∈ chunk → is_directory fs p = Throw w →
  ∃ what, generate_map fs chunk = Throw what.
Proof.
  intros Hin Hp. unfold generate_map.
  destruct (generate_loop_throws_if fs chunk p w Hin Hp ∅ []) as [what ->].
  by eexists.
Qed.

Lemma main_body_planned env paths chunks :
  plan_chunks paths (hardware_concurrency env) = Some chunks →
  main_body env paths
  = match merge_futures (imap (launch env) chunks).*1 ∅ 0 with
    | Throw what => Uncaught what
    | Ok (processed_data, directory_counter) =>
        Completed processed_data directory_counter
          (concat (imap (launch env) chunks).*2
             ++ report processed_data directory_counter (elapsed_ms env))
    end.
Proof. intros Hplan. unfold main_body. by rewrite Hplan. Qed.

(** *** The keys and the values of the global map *)

Lemma directories_app fs paths paths' :
  directories fs (paths ++ paths') = directories fs paths ++ directories fs paths'.
Proof. apply filter_app. Qed.

Lemma elem_of_directories fs paths p :
  p ∈ directories fs paths ↔ p ∈ paths ∧ is_directory fs p = Ok true.
Proof. unfold directories. rewrite list_elem_of_filter, is_dir_true. tauto. Qed.

Lemma elem_of_directory_names fs paths name :
  name ∈ filename <$> directories fs paths ↔
  ∃ p, p ∈ paths ∧ is_directory fs p = Ok true ∧ filename p = name.
Proof.
  rewrite list_elem_of_fmap. split.
  - intros (p & -> & Hp%elem_of_directories). exists p. tauto.
  - intros (p & Hp & Hdir & <-). exists p. split; [done|].
    by apply elem_of_directories.
Qed.

Lemma scan_chunk_dom fs chunk :
  dom (scan_chunk fs chunk ∅) = list_to_set (filename <$> directories fs chunk).
Proof.
  apply set_eq. intros name.
  rewrite elem_of_dom, scan_chunk_is_Some, elem_of_list_to_set,
    elem_of_directory_names, lookup_empty.
  split; [intros [[i [=]]|?]; done|by right].
Qed.

Lemma mentioned_partials fs chunks name :
  mentioned name (partials_of fs chunks) ↔
  ∃ p, p ∈ concat chunks ∧ is_directory fs p = Ok true ∧ filename p = name.
Proof.
  unfold mentioned, partials_of. rewrite Exists_fmap, Exists_exists. split.
  - intros (chunk & Hc & Hsome). apply scan_chunk_is_Some in Hsome as [Hsome|Hp].
    { rewrite lookup_empty in Hsome. by destruct Hsome. }
    destruct Hp as (p & Hp & ?). exists p. split; [|done].
    apply elem_of_concat. eauto.
  - intros (p & (chunk & Hc & Hp)%elem_of_concat & Hdir & Hname).
    exists chunk. split; [done|]. apply scan_chunk_is_Some. right. eauto.
Qed.

(** A directory whose name no other directory of the list bears is the
    last of its name. *)
Lemma distinct_names_last fs paths p :
  distinct_names fs paths → p ∈ paths → is_directory fs p = Ok true →
  last_of_its_name fs paths p.
Proof.
  intros Hdistinct Hin Hdir.
  apply list_elem_of_split in Hin as (before & after & ->).
  exists before, after. split_and!; [done..|]. intros q Hq Hqdir Heq.
  unfold distinct_names in Hdistinct.
  rewrite directories_app, fmap_app in Hdistinct.
  apply NoDup_app in Hdistinct as (_ & _ & Hnodup).
  unfold directories in Hnodup. rewrite filter_cons in Hnodup.
  rewrite decide_True in Hnodup by by apply is_dir_true.
  rewrite fmap_cons in Hnodup. apply NoDup_cons in Hnodup as [Hnotin _].
  apply Hnotin. rewrite <-Heq. apply list_elem_of_fmap_2.
  by apply elem_of_directories.
Qed.

Lemma sum_over_absent fs chunks name (f : Extension_info → N) :
  f zero_info = 0 →
  (∀ q, q ∈ concat chunks → is_directory fs q = Ok true → filename q ≠ name) →
  sum_over (λ P, f (subscript P name)) (partials_of fs chunks) = 0.
Proof.
  intros Hf. induction chunks as [|c chunks IH]; intros Hno; simpl; [done|].
  rewrite IH.
  - rewrite (subscript_None (scan_chunk fs c ∅) name), Hf; [done|].
    rewrite scan_chunk_lookup_other; [done|].
    intros q Hq. apply Hno. simpl. apply elem_of_app. by left.
  - intros q Hq. apply Hno. simpl. apply elem_of_app. by right.
Qed.

(** With distinct names, the records that the partial maps hold for the
    name of a directory add up to the scan of that directory. *)
Lemma sum_over_distinct fs chunks p (f : Extension_info → N) :
  f zero_info = 0 →
  distinct_names fs (concat chunks) →
  p ∈ concat chunks → is_directory fs p = Ok true →
  sum_over (λ P, f (subscript P (filename p))) (partials_of fs chunks)
  = f (dir_stats (directory_iterator fs p)).
Proof.
  intros Hf. induction chunks as [|c chunks IH]; intros Hdistinct Hin Hdir.
  { by apply elem_of_nil in Hin. }
  simpl in Hdistinct, Hin. unfold distinct_names in Hdistinct.
  rewrite directories_app, fmap_app in Hdistinct.
  apply NoDup_app in Hdistinct as (Hc & Hcross & Hrest).
  cbn [partials_of fmap list_fmap sum_over foldr].
  fold (partials_of fs chunks).
  fold (sum_over (λ P, f (subscript P (filename p))) (partials_of fs chunks)).
  apply elem_of_app in Hin as [Hin|Hin].
  - rewrite (sum_over_absent fs chunks (filename p) f Hf).
    + rewrite (subscript_Some _ _ (dir_stats (directory_iterator fs p))); [lia|].
      by apply scan_chunk_lookup_last, distinct_names_last.
    + intros q Hq Hqdir Heq. apply (Hcross (filename p)).
      * apply elem_of_directory_names. eauto.
      * apply elem_of_directory_names. eauto.
  - rewrite IH by done.
    rewrite (subscript_None (scan_chunk fs c ∅) (filename p)), Hf; [done|].
    rewrite scan_chunk_lookup_other; [done|].
    intros q Hq Hqdir Heq. apply (Hcross (filename p)).
    + apply elem_of_directory_names. eauto.
    + apply elem_of_directory_names. eauto.
Qed.

(** With distinct names, merging the scans of the chunks gives the scan
    of the whole list. *)
Lemma merged_distinct fs chunks :
  distinct_names fs (concat chunks) →
  (merge_all (partials_of fs chunks) ∅ 0).1 = scan_chunk fs (concat chunks) ∅.
Proof.
  intros Hdistinct. apply map_eq. intros name.
  destruct (decide (name ∈ filename <$> directories fs (concat chunks)))
    as [Hin|Hnotin].
  - apply elem_of_directory_names in Hin as (p & Hp & Hdir & <-).
    rewrite merge_all_mentioned by (apply mentioned_partials; eauto).
    rewrite (scan_chunk_lookup_last fs (concat chunks))
      by by apply distinct_names_last.
    rewrite (subscript_None ∅ _ (lookup_empty _)). unfold files_in, bytes_in. simpl.
    rewrite (sum_over_distinct fs chunks p num_files) by done.
    rewrite (sum_over_distinct fs chunks p total_size) by done.
    destruct (dir_stats_in_range (directory_iterator fs p)) as [Hn Hs].
    rewrite !wrap_uintmax_small by done.
    by destruct (dir_stats (directory_iterator fs p)).
  - rewrite merge_all_not_mentioned.
    + rewrite scan_chunk_lookup_other; [done|].
      intros q Hq Hqdir Heq. apply Hnotin, elem_of_directory_names. eauto.
    + rewrite mentioned_partials. intros (p & ?). apply Hnotin.
      apply elem_of_directory_names. eauto.
Qed.

Lemma scan_chunk_size fs chunk :
  distinct_names fs chunk →
  size (scan_chunk fs chunk ∅) = length (directories fs chunk).
Proof.
  intros Hdistinct. rewrite <-size_dom, scan_chunk_dom.
  rewrite size_list_to_set by done. apply length_fmap.
Qed.

Lemma sum_sizes_distinct fs chunks :
  distinct_names fs (concat chunks) →
  sum_over (λ P, N.of_nat (size P)) (partials_of fs chunks)
  = N.of_nat (length (directories fs (concat chunks))).
Proof.
  induction chunks as [|c chunks IH]; intros Hdistinct; [done|].
  simpl in Hdistinct. unfold distinct_names in Hdistinct.
  rewrite directories_app, fmap_app in Hdistinct.
  apply NoDup_app in Hdistinct as (Hc & _ & Hrest).
  cbn [partials_of fmap list_fmap sum_over foldr concat].
  fold (partials_of fs chunks).
  fold (sum_over (λ P, N.of_nat (size P)) (partials_of fs chunks)).
  rewrite IH, scan_chunk_size, directories_app, length_app by done. lia.
Qed.

(** The run with distinct names, and every launch and status query
    succeeding. *)
Lemma main_body_distinct env paths :
  N.of_nat (length paths) < UINTMAX_MOD →
  2 ≤ hardware_concurrency env < UINT_MOD →
  launches_ok env →
  status_ok (env_fs env) paths →
  distinct_names (env_fs env) paths →
  ∃ printed,
    main_body env paths
    = Completed (scan_chunk (env_fs env) paths ∅)
        (wrap_uintmax (N.of_nat (length (directories (env_fs env) paths))))
        printed.
Proof.
  intros Hlen Hh Hlaunch Hok Hdistinct.
  destruct (plan_chunks_concat paths _ Hlen Hh) as (chunks & Hplan & Hconcat).
  rewrite (main_body_planned env paths chunks Hplan).
  rewrite launched_partials, merge_futures_Ok;
    [|done|by rewrite <-status_ok_concat, Hconcat].
  destruct (merge_all _ ∅ 0) as [g c] eqn:Hmerge. eexists. f_equal.
  - change g with (g, c).1. rewrite <-Hmerge, merged_distinct, Hconcat; [done|].
    by rewrite Hconcat.
  - change c with (g, c).2. rewrite <-Hmerge, merge_all_counter by done.
    rewrite N.add_0_l, sum_sizes_distinct, Hconcat; [done|]. by rewrite Hconcat.
Qed.
End run.

Lemma single_hardware_thread_scans_nothing_aux (env : Environment) (paths : list path) :
  hardware_concurrency env = 1 →
  main_body env paths = Completed ∅ 0 (report ∅ 0 (elapsed_ms env)).
Proof.
  intros Hone. rewrite (main_body_planned env paths []); [done|].
  rewrite Hone. apply plan_chunks_one.
Qed.

(** X10.  With a single hardware thread the program launches no task:
    whatever lies below the root, the global map stays empty, the
    progress counter stays 0 and the report consists of the header, the
    blank line and a summary line of zeros. *)
Theorem single_hardware_thread_scans_nothing (env : Environment) (paths : list path) :
  hardware_concurrency env = 1 →
  main_body env paths
  = Completed ∅ 0 [Println_header; Println_blank; Println_total 0 0 0 (elapsed_ms env)].
Proof.
  intros Hone.
  by rewrite single_hardware_thread_scans_nothing_aux, report_empty.
Qed.

Lemma single_hardware_thread_scans_nothing_witness :
  hardware_concurrency (Fixture.env_ab 1) = 1
  ∧ main_body (Fixture.env_ab 1) Fixture.paths_ab
    = Completed ∅ 0 [Println_header; Println_blank; Println_total 0 0 0 7].
Proof.
  split; [reflexivity|].
  exact (single_hardware_thread_scans_nothing (Fixture.env_ab 1) Fixture.paths_ab eq_refl).
Defined.

(** X11.  The partition step has undefined behaviour exactly when
    [std::thread::hardware_concurrency()] returns 0, where line 92
    divides by zero: for every other thread count all the iterator ranges
    of lines 98-99 lie inside the path list. *)
Theorem undefined_behaviour_iff_no_hardware_thread (env : Environment)
    (paths : list path) :
  N.of_nat (length paths) < UINTMAX_MOD →
  hardware_concurrency env < UINT_MOD →
  main_body env paths = Undefined_behaviour ↔ hardware_concurrency env = 0.
Proof.
  intros Hlen Hh. split.
  - intros Hub. destruct (decide (hardware_concurrency env = 0)) as [|Hne]; [done|].
    destruct (plan_chunks_is_Some paths (hardware_concurrency env) Hlen)
      as [chunks Hplan]; [lia|].
    rewrite (main_body_planned env paths chunks Hplan) in Hub.
    by destruct (merge_futures _ ∅ 0) as [[g c]|what].
  - intros Hzero. unfold main_body. by rewrite Hzero.
Qed.

Lemma undefined_behaviour_iff_no_hardware_thread_witness :
  N.of_nat (length Fixture.paths_ab) < UINTMAX_MOD
  ∧ hardware_concurrency (Fixture.env_ab 0) < UINT_MOD
  ∧ main_body (Fixture.env_ab 0) Fixture.paths_ab = Undefined_behaviour.
Proof.
  assert (N.of_nat (length Fixture.paths_ab) < UINTMAX_MOD) as Hlen by reflexivity.
  assert (hardware_concurrency (Fixture.env_ab 0) < UINT_MOD) as Hh by reflexivity.
  split_and!; [exact Hlen|exact Hh|].
  exact (proj2 (undefined_behaviour_iff_no_hardware_thread
                  (Fixture.env_ab 0) Fixture.paths_ab Hlen Hh) eq_refl).
Defined.



(** X13.  A status query that throws ends the whole run: the exception
    leaves [generate_map], is stored in the future of its chunk and is
    thrown again by [future.get()] in [main], where nothing catches it.
    With at least two hardware threads, an uncaught exception always
    comes from the status query of an enumerated path, and when every
    launch succeeds one throwing status query anywhere in the path list is
    enough for the run to end that way, without any report. *)
Theorem run_aborts_on_status_failure (env : Environment) (paths : list path) :
  N.of_nat (length paths) < UINTMAX_MOD →
  2 ≤ hardware_concurrency env < UINT_MOD →
  (∀ what, main_body env paths = Uncaught what →
     ∃ p, p ∈ paths ∧ is_directory (env_fs env) p = Throw what)
  ∧ (launches_ok env →
     (∃ p w, p ∈ paths ∧ is_directory (env_fs env) p = Throw w) →
     ∃ what, main_body env paths = Uncaught what).
Proof.
  intros Hlen Hh.
  destruct (plan_chunks_concat paths (hardware_concurrency env) Hlen Hh)
    as (chunks & Hplan & Hconcat).
  rewrite (main_body_planned env paths chunks Hplan). split.
  - intros what Hrun.
    destruct (merge_futures _ ∅ 0) as [[g c]|w] eqn:Hmerge; [done|].
    injection Hrun as ->. apply merge_futures_Throw_elem in Hmerge.
    apply list_elem_of_lookup in Hmerge as [i Hi].
    rewrite list_lookup_fmap, list_lookup_imap in Hi.
    destruct (chunks !! i) as [chunk|] eqn:Hchunk; [|done].
    simpl in Hi. injection Hi as Hi.
    apply launch_Throw, generate_map_throw in Hi
      as (before & p & after & -> & _ & Hp).
    exists p. split; [|done]. rewrite <-Hconcat. apply elem_of_concat.
    exists (before ++ p :: after). split; [by eapply list_elem_of_lookup_2|].
    apply elem_of_app. right. by left.
  - intros Hlaunch (p & w & Hin & Hp).
    rewrite <-Hconcat in Hin. apply elem_of_concat in Hin as (chunk & Hchunk & Hin).
    apply list_elem_of_lookup in Hchunk as [i Hi].
    destruct (generate_map_throws_if _ _ _ _ Hin Hp) as [w' Hthrow].
    destruct (merge_futures_Throw_exists (imap (launch env) chunks).*1 ∅ 0 w')
      as [what ->]; [|by eexists].
    apply list_elem_of_lookup. exists i.
    rewrite list_lookup_fmap, list_lookup_imap, Hi. simpl. f_equal.
    unfold launch. by rewrite Hlaunch, Hthrow.
Qed.

Lemma run_aborts_on_status_failure_witness :
  N.of_nat (length Fixture.paths_locked) < UINTMAX_MOD
  ∧ 2 ≤ hardware_concurrency Fixture.env_locked < UINT_MOD
  ∧ launches_ok Fixture.env_locked
  ∧ is_directory (env_fs Fixture.env_locked) "R/locked" = Throw "Permission denied"
  ∧ ∃ what, main_body Fixture.env_locked Fixture.paths_locked = Uncaught what.
Proof.
  assert (N.of_nat (length Fixture.paths_locked) < UINTMAX_MOD) as Hlen by reflexivity.
  assert (2 ≤ hardware_concurrency Fixture.env_locked < UINT_MOD) as Hh
    by (split; [discriminate|reflexivity]).
  assert (launches_ok Fixture.env_locked) as Hlaunch by (intros i; reflexivity).
  split_and!; [exact Hlen|discriminate|reflexivity|exact Hlaunch|reflexivity|].
  apply (proj2 (run_aborts_on_status_failure _ _ Hlen Hh) Hlaunch).
  exists "R/locked", "Permission denied". split; [|reflexivity].
  apply list_elem_of_lookup_2 with 2%nat. reflexivity.
Defined.

(** X14.  When every launch and every status query succeeds, the keys of
    the final global map are exactly the final name components of the
    directories of the enumerated path list, at whatever depth below the
    root they lie. *)
Theorem global_keys_are_directory_names (env : Environment) (paths : list path) :
  N.of_nat (length paths) < UINTMAX_MOD →
  2 ≤ hardware_concurrency env < UINT_MOD →
  launches_ok env →
  status_ok (env_fs env) paths →
  ∃ processed_data directory_counter printed,
    main_body env paths = Completed processed_data directory_counter printed
    ∧ ∀ name, is_Some (processed_data !! name) ↔
        ∃ p, p ∈ paths ∧ is_directory (env_fs env) p = Ok true ∧ filename p = name.
Proof.
  intros Hlen Hh Hlaunch Hok.
  destruct (plan_chunks_concat paths _ Hlen Hh) as (chunks & Hplan & Hconcat).
  rewrite (main_body_planned env paths chunks Hplan).
  rewrite launched_partials, merge_futures_Ok;
    [|done|by rewrite <-status_ok_concat, Hconcat].
  destruct (merge_all _ ∅ 0) as [g c] eqn:Hmerge. exists g, c. eexists.
  split; [done|]. intros name. change g with (g, c).1. rewrite <-Hmerge.
  rewrite <-Hconcat, <-mentioned_partials. split.
  - intros Hsome. destruct (decide (mentioned name (partials_of (env_fs env) chunks)))
      as [|Hno]; [done|].
    rewrite merge_all_not_mentioned, lookup_empty in Hsome by done.
    by destruct Hsome.
  - intros Hin. rewrite merge_all_mentioned by done. by eexists.
Qed.

Lemma global_keys_are_directory_names_witness :
  N.of_nat (length Fixture.paths_xy) < UINTMAX_MOD
  ∧ 2 ≤ hardware_concurrency Fixture.env_xy < UINT_MOD
  ∧ launches_ok Fixture.env_xy
  ∧ status_ok (env_fs Fixture.env_xy) Fixture.paths_xy
  ∧ ∃ processed_data directory_counter printed,
      main_body Fixture.env_xy Fixture.paths_xy
      = Completed processed_data directory_counter printed
      ∧ is_Some (processed_data !! "x").
Proof.
  assert (N.of_nat (length Fixture.paths_xy) < UINTMAX_MOD) as Hlen by reflexivity.
  assert (2 ≤ hardware_concurrency Fixture.env_xy < UINT_MOD) as Hh
    by (split; [discriminate|reflexivity]).
  assert (launches_ok Fixture.env_xy) as Hlaunch by (intros i; reflexivity).
  assert (status_ok (env_fs Fixture.env_xy) Fixture.paths_xy) as Hok
    by apply status_ok_of_listings.
  split_and!; [exact Hlen|discriminate|reflexivity|exact Hlaunch|exact Hok|].
  destruct (global_keys_are_directory_names _ _ Hlen Hh Hlaunch Hok)
    as (g & c & printed & Hrun & Hkeys).
  exists g, c, printed. split; [exact Hrun|]. apply Hkeys.
  exists "R/y/x". split_and!; [|reflexivity..].
  apply list_elem_of_lookup_2 with 2%nat. reflexivity.
Defined.

(** X15.  When no two directories of the path list have the same final
    name component (and every launch and status query succeeds), cutting
    the list into chunks changes nothing: the final global map is the map
    that one call of [generate_map] on the whole path list returns, each
    directory has the record of its own scan, and the progress counter is
    the number of directories, which is the number of keys. *)
Theorem distinct_names_parallel_equals_sequential (env : Environment)
    (paths : list path) :
  N.of_nat (length paths) < UINTMAX_MOD →
  2 ≤ hardware_concurrency env < UINT_MOD →
  launches_ok env →
  status_ok (env_fs env) paths →
  distinct_names (env_fs env) paths →
  ∃ processed_data directory_counter printed out,
    main_body env paths = Completed processed_data directory_counter printed
    ∧ generate_map (env_fs env) paths = Ok (processed_data, out)
    ∧ (∀ p, p ∈ paths → is_directory (env_fs env) p = Ok true →
         processed_data !! filename p
         = Some (dir_stats (directory_iterator (env_fs env) p)))
    ∧ directory_counter = N.of_nat (size processed_data)
    ∧ size processed_data = length (directories (env_fs env) paths).
Proof.
  intros Hlen Hh Hlaunch Hok Hdistinct.
  destruct (main_body_distinct env paths Hlen Hh Hlaunch Hok Hdistinct)
    as [printed Hrun].
  eexists _, _, printed, _. split; [exact Hrun|].
  split; [by apply generate_map_ok|]. split_and!.
  - intros p Hp Hdir. by apply scan_chunk_lookup_last, distinct_names_last.
  - rewrite scan_chunk_size by done. apply wrap_uintmax_small.
    pose proof (length_filter (λ p, is_dir (env_fs env) p = true) paths) as Hle.
    unfold directories. lia.
  - by apply scan_chunk_size.
Qed.

Lemma distinct_names_parallel_equals_sequential_witness :
  N.of_nat (length Fixture.paths_ab) < UINTMAX_MOD
  ∧ 2 ≤ hardware_concurrency (Fixture.env_ab 3) < UINT_MOD
  ∧ launches_ok (Fixture.env_ab 3)
  ∧ status_ok (env_fs (Fixture.env_ab 3)) Fixture.paths_ab
  ∧ distinct_names (env_fs (Fixture.env_ab 3)) Fixture.paths_ab
  ∧ ∃ processed_data printed,
      main_body (Fixture.env_ab 3) Fixture.paths_ab
      = Completed processed_data 2 printed.
Proof.
  assert (N.of_nat (length Fixture.paths_ab) < UINTMAX_MOD) as Hlen by reflexivity.
  assert (2 ≤ hardware_concurrency (Fixture.env_ab 3) < UINT_MOD) as Hh
    by (split; [discriminate|reflexivity]).
  assert (launches_ok (Fixture.env_ab 3)) as Hlaunch by (intros i; reflexivity).
  assert (status_ok (env_fs (Fixture.env_ab 3)) Fixture.paths_ab) as Hok
    by apply status_ok_of_listings.
  assert (distinct_names (env_fs (Fixture.env_ab 3)) Fixture.paths_ab) as Hdistinct.
  { apply (bool_decide_unpack _). by vm_compute. }
  split_and!; [exact Hlen|discriminate|reflexivity|exact Hlaunch|exact Hok|exact Hdistinct|].
  destruct (distinct_names_parallel_equals_sequential _ _ Hlen Hh Hlaunch Hok Hdistinct)
    as (g & c & printed & out & Hrun & _ & _ & Hc & Hsize).
  exists g, printed. rewrite Hrun. f_equal. rewrite Hc, Hsize. reflexivity.
Defined.

(** X16.  With distinct directory names the result does not depend on
    the machine: two runs over the same tree and the same path list, with
    any two thread counts of at least two, end with the same global map
    and the same progress counter, hence with the same report when they
    take the same time. *)
Theorem distinct_names_thread_count_irrelevant (env1 env2 : Environment)
    (paths : list path) :
  env_fs env1 = env_fs env2 →
  N.of_nat (length paths) < UINTMAX_MOD →
  2 ≤ hardware_concurrency env1 < UINT_MOD →
  2 ≤ hardware_concurrency env2 < UINT_MOD →
  launches_ok env1 → launches_ok env2 →
  status_ok (env_fs env1) paths →
  distinct_names (env_fs env1) paths →
  ∃ processed_data directory_counter printed1 printed2,
    main_body env1 paths = Completed processed_data directory_counter printed1
    ∧ main_body env2 paths = Completed processed_data directory_counter printed2.
Proof.
  intros Hfs Hlen Hh1 Hh2 Hlaunch1 Hlaunch2 Hok Hdistinct.
  destruct (main_body_distinct env1 paths Hlen Hh1 Hlaunch1 Hok Hdistinct)
    as [printed1 Hrun1].
  rewrite Hfs in Hok, Hdistinct.
  destruct (main_body_distinct env2 paths Hlen Hh2 Hlaunch2 Hok Hdistinct)
    as [printed2 Hrun2].
  rewrite <-Hfs in Hrun2. by eexists _, _, printed1, printed2.
Qed.

Lemma distinct_names_thread_count_irrelevant_witness :
  env_fs (Fixture.env_ab 2) = env_fs (Fixture.env_ab 3)
  ∧ N.of_nat (length Fixture.paths_ab) < UINTMAX_MOD
  ∧ 2 ≤ hardware_concurrency (Fixture.env_ab 2) < UINT_MOD
  ∧ 2 ≤ hardware_concurrency (Fixture.env_ab 3) < UINT_MOD
  ∧ launches_ok (Fixture.env_ab 2) ∧ launches_ok (Fixture.env_ab 3)
  ∧ status_ok (env_fs (Fixture.env_ab 2)) Fixture.paths_ab
  ∧ distinct_names (env_fs (Fixture.env_ab 2)) Fixture.paths_ab
  ∧ ∃ processed_data directory_counter printed1 printed2,
      main_body (Fixture.env_ab 2) Fixture.paths_ab
      = Completed processed_data directory_counter printed1
      ∧ main_body (Fixture.env_ab 3) Fixture.paths_ab
        = Completed processed_data directory_counter printed2.
Proof.
  assert (N.of_nat (length Fixture.paths_ab) < UINTMAX_MOD) as Hlen by reflexivity.
  assert (2 ≤ hardware_concurrency (Fixture.env_ab 2) < UINT_MOD) as Hh2
    by (split; [discriminate|reflexivity]).
  assert (2 ≤ hardware_concurrency (Fixture.env_ab 3) < UINT_MOD) as Hh3
    by (split; [discriminate|reflexivity]).
  assert (launches_ok (Fixture.env_ab 2)) as Hlaunch2 by (intros i; reflexivity).
  assert (launches_ok (Fixture.env_ab 3)) as Hlaunch3 by (intros i; reflexivity).
  assert (status_ok (env_fs (Fixture.env_ab 2)) Fixture.paths_ab) as Hok
    by apply status_ok_of_listings.
  assert (distinct_names (env_fs (Fixture.env_ab 2)) Fixture.paths_ab) as Hdistinct.
  { apply (bool_decide_unpack _). by vm_compute. }
  split_and!;
    [reflexivity|exact Hlen|discriminate|reflexivity|discriminate|reflexivity
    |exact Hlaunch2|exact Hlaunch3|exact Hok|exact Hdistinct|].
  exact (distinct_names_thread_count_irrelevant (Fixture.env_ab 2) (Fixture.env_ab 3)
           Fixture.paths_ab eq_refl Hlen Hh2 Hh3 Hlaunch2 Hlaunch3 Hok Hdistinct).
Defined.

(** ** The summary line against the directory lines *)

Section totals_and_lines.
Implicit Types (m : map_type) (l : list (string * Extension_info)).

Lemma printed_files_filter l :
  printed_files ((λ e, Println_directory e.1 (num_files e.2) (total_size e.2))
                   <$> filter (λ e, 0 < num_files e.2) l)
  = foldr (λ e acc, Z.of_N (num_files e.2) + acc)%Z 0%Z l.
Proof.
  induction l as [|e l IH]; [done|].
  rewrite filter_cons. case_decide as Hpos; simpl.
  - by rewrite <-IH.
  - rewrite <-IH. assert (num_files e.2 = 0) as -> by lia. done.
Qed.

Lemma printed_bytes_filter l :
  Forall (λ e, num_files e.2 = 0 → total_size e.2 = 0) l →
  printed_bytes ((λ e, Println_directory e.1 (num_files e.2) (total_size e.2))
                   <$> filter (λ e, 0 < num_files e.2) l)
  = foldr (λ e acc, Z.of_N (total_size e.2) + acc)%Z 0%Z l.
Proof.
  induction 1 as [|e l He _ IH]; [done|].
  rewrite filter_cons. case_decide as Hpos; simpl.
  - by rewrite <-IH.
  - rewrite <-IH, He by lia. done.
Qed.
End totals_and_lines.

(** X17.  The summary line agrees with the directory lines printed above
    it: below 2^31 the file total is the sum of the file counts of the
    directory lines, and, when every entry without a file holds no byte,
    the byte total is the sum of their byte counts, although the totals
    run over all the entries of the map and the lines only over those
    with a file. *)
Theorem summary_totals_match_directory_lines (processed_data : map_type) :
  (sum_field num_files processed_data < 2 ^ 31)%Z →
  (sum_field total_size processed_data < 2 ^ 31)%Z →
  (∀ dir info, processed_data !! dir = Some info →
     num_files info = 0 → total_size info = 0) →
  total_subdirectories processed_data = printed_files (directory_lines processed_data)
  ∧ total_space processed_data = printed_bytes (directory_lines processed_data).
Proof.
  intros Hfiles Hbytes Hzero. unfold total_subdirectories, total_space.
  rewrite !total_exact_when_small by done. unfold directory_lines. split.
  - by rewrite printed_files_filter.
  - rewrite printed_bytes_filter; [done|].
    apply Forall_forall. intros [dir info] Hin%elem_of_entries.
    exact (Hzero dir info Hin).
Qed.

Lemma summary_totals_match_directory_lines_witness :
  let m := ({["b" := {| num_files := 0; total_size := 0 |}]}
            ∪ {["a" := {| num_files := 3; total_size := 60 |}]} : map_type) in
  (sum_field num_files m < 2 ^ 31)%Z
  ∧ (sum_field total_size m < 2 ^ 31)%Z
  ∧ (∀ dir info, m !! dir = Some info → num_files info = 0 → total_size info = 0)
  ∧ total_subdirectories m = 3%Z ∧ total_space m = 60%Z
  ∧ printed_files (directory_lines m) = 3%Z.
Proof.
  intros m.
  assert (sum_field num_files m < 2 ^ 31)%Z as Hfiles by reflexivity.
  assert (sum_field total_size m < 2 ^ 31)%Z as Hbytes by reflexivity.
  assert (∀ dir info, m !! dir = Some info → num_files info = 0 → total_size info = 0)
    as Hzero.
  { intros dir info Hin Hn. unfold m in Hin.
    apply lookup_union_Some_raw in Hin as [Hin|[_ Hin]];
      apply lookup_singleton_Some in Hin as [_ <-]; [reflexivity|discriminate Hn]. }
  split_and!; [exact Hfiles|exact Hbytes|exact Hzero|reflexivity|reflexivity|].
  rewrite <-(proj1 (summary_totals_match_directory_lines m Hfiles Hbytes Hzero)).
  reflexivity.
Defined.
